(** * mopidy-youtube: the asynchronous entry model of [mopidy_youtube/youtube.py]

    A shallow embedding of the YouTube back end of the Mopidy plugin: the
    [Entry] / [Video] / [Playlist] classes with their per-field futures, the
    identity cache behind [Entry.get], the batched loaders, the playlist
    pagination loop and the dynamic [ThreadPool].

    Python objects live in an explicit heap and are named by their index, so
    that aliasing of cached entries is visible; every operation that mutates
    shared state is a state-passing function over [World] that may also raise
    a Python exception. *)

From Stdlib Require Import ZArith Lia Ascii String.
From stdpp Require Import base option list strings gmap relations.

Local Open Scope string_scope.
Local Open Scope Z_scope.
Local Open Scope list_scope.

(** ** Python values

    Everything the code handles that comes out of [result.json()], plus
    references to entries. A [VDict] keeps its pairs in iteration order. *)

#[local] Set Warnings "-register-all".

Inductive value : Type :=
  | VNone
  | VBool (b : bool)
  | VInt (n : Z)
  | VStr (s : string)
  | VList (l : list value)
  | VDict (kvs : list (string * value))
  | VObj (r : nat).

Inductive exn : Type :=
  | KeyError
  | TypeError
  | AttributeError
  | UnboundLocalError
  | QueueFull
  | RemoteError
  | ReferenceError.

Inductive res (A : Type) : Type :=
  | Ok (a : A)
  | Raise (e : exn).
Arguments Ok {A} a.
Arguments Raise {A} e.

Definition res_bind {A B} (r : res A) (f : A → res B) : res B :=
  match r with
  | Ok a => f a
  | Raise e => Raise e
  end.

(** [not v] is [negb (truthy v)]. *)
Definition truthy (v : value) : bool :=
  match v with
  | VNone => false
  | VBool b => b
  | VInt n => negb (n =? 0)
  | VStr s => negb (String.eqb s "")
  | VList l => match l with [] => false | _ => true end
  | VDict kvs => match kvs with [] => false | _ => true end
  | VObj _ => true
  end.

Fixpoint assoc (k : string) (kvs : list (string * value)) : option value :=
  match kvs with
  | [] => None
  | (k', v) :: rest => if String.eqb k k' then Some v else assoc k rest
  end.

(** [v[k]] for a string key [k]. *)
Definition subscript (v : value) (k : string) : res value :=
  match v with
  | VDict kvs =>
      match assoc k kvs with
      | Some x => Ok x
      | None => Raise KeyError
      end
  | _ => Raise TypeError
  end.

(** [v.get(k)]: only a dict has the method. *)
Definition dict_get (v : value) (k : string) : res value :=
  match v with
  | VDict kvs =>
      match assoc k kvs with
      | Some x => Ok x
      | None => Ok VNone
      end
  | _ => Raise AttributeError
  end.

(** [v.items()]. *)
Definition dict_items (v : value) : res (list (string * value)) :=
  match v with
  | VDict kvs => Ok kvs
  | _ => Raise AttributeError
  end.

Fixpoint chars (s : string) : list value :=
  match s with
  | EmptyString => []
  | String c rest => VStr (String c EmptyString) :: chars rest
  end.

(** [for x in v]: what the iteration visits. *)
Definition py_iter (v : value) : res (list value) :=
  match v with
  | VList l => Ok l
  | VDict kvs => Ok (map (λ kv, VStr (fst kv)) kvs)
  | VStr s => Ok (chars s)
  | _ => Raise TypeError
  end.

(** [x or None]. *)
Definition or_None (v : value) : value :=
  if truthy v then v else VNone.

(** Hashable values, and equality of two of them as dictionary keys
    ([True == 1], [False == 0]). *)
Definition hashable (v : value) : bool :=
  match v with
  | VList _ | VDict _ => false
  | _ => true
  end.

Definition key_eqb (a b : value) : bool :=
  match a, b with
  | VNone, VNone => true
  | VBool x, VBool y => Bool.eqb x y
  | VBool x, VInt n | VInt n, VBool x => n =? (if x then 1 else 0)
  | VInt n, VInt m => n =? m
  | VStr s, VStr t => String.eqb s t
  | VObj r, VObj q => Nat.eqb r q
  | _, _ => false
  end.

(** Python 2 [min(x, n)] for an int [n]: the second argument wins only when
    it is strictly smaller; [None] is below everything, numbers are below
    every other type. *)
Definition py2_min (x : value) (n : Z) : value :=
  match x with
  | VNone => VNone
  | VBool b => if n <? (if b then 1 else 0) then VInt n else VBool b
  | VInt a => if n <? a then VInt n else VInt a
  | _ => VInt n
  end.

(** ** The duration pattern

    [re.search('PT((?P<hours>\d+)H)?((?P<minutes>\d+)M)?((?P<seconds>\d+)S)?', s)].
    After the literal [PT] every group is optional, so the leftmost [PT]
    always yields the match. Inside a group [\d+] is greedy and is followed by
    a letter: giving back digits leaves a digit where the letter is expected,
    so the group takes the whole run of digits or does not take part. *)

Definition is_digit (c : ascii) : bool :=
  ((48 <=? nat_of_ascii c) && (nat_of_ascii c <=? 57))%nat.

Fixpoint span_digits (s : string) : string * string :=
  match s with
  | String c rest =>
      if is_digit c
      then let '(ds, tl) := span_digits rest in (String c ds, tl)
      else (EmptyString, s)
  | EmptyString => (EmptyString, EmptyString)
  end.

(** One optional group [((?P<name>\d+)U)?] for the unit letter [u]. *)
Definition component (u : ascii) (s : string) : option string * string :=
  match span_digits s with
  | (String d ds, String c rest) =>
      if Ascii.eqb c u then (Some (String d ds), rest) else (None, s)
  | _ => (None, s)
  end.

Record duration_match : Type := {
  hours : option string;
  minutes : option string;
  seconds : option string
}.

Definition match_here (s : string) : option duration_match :=
  match s with
  | String "P" (String "T" r) =>
      let '(h, r1) := component "H" r in
      let '(m, r2) := component "M" r1 in
      let '(sec, _) := component "S" r2 in
      Some {| hours := h; minutes := m; seconds := sec |}
  | _ => None
  end.

Fixpoint re_search (s : string) : option duration_match :=
  match match_here s with
  | Some m => Some m
  | None =>
      match s with
      | String _ rest => re_search rest
      | EmptyString => None
      end
  end.

(** [int(ds)] on a string of decimal digits. *)
Fixpoint int_digits (acc : Z) (ds : string) : Z :=
  match ds with
  | String c rest => int_digits (10 * acc + (Z.of_nat (nat_of_ascii c) - 48)) rest
  | EmptyString => acc
  end.

(** [int(m.group(name) or 0)]. *)
Definition int_group (g : option string) : Z :=
  match g with
  | Some ds => int_digits 0 ds
  | None => 0
  end.

(** The [k == 'length'] branch of [_set_api_data]. *)
Definition decode_length (item : value) : res value :=
  res_bind (subscript item "contentDetails") (λ details,
  res_bind (subscript details "duration") (λ d,
  match d with
  | VStr s =>
      match re_search s with
      | Some m =>
          Ok (VInt (int_group (hours m) * 3600 +
                    int_group (minutes m) * 60 +
                    int_group (seconds m)))
      | None => Raise AttributeError
      end
  | _ => Raise TypeError
  end)).

Definition video_record (duration : string) : value :=
  VDict [("id", VStr "7uj0hOIm2kY");
         ("snippet", VDict [("title", VStr "t"); ("channelTitle", VStr "c")]);
         ("contentDetails", VDict [("duration", VStr duration)])].

(** ** Futures, entries and the world

    A [pykka.ThreadingFuture] is the one-slot queue that [_set_api_data]
    inspects ([future._queue.empty()]): empty while the field is pending,
    holding the value once the field is resolved. *)

Record ThreadingFuture : Type := { _queue : option value }.

Definition new_future : ThreadingFuture := {| _queue := None |}.

(** [future.set(v)]: a non-blocking put on a queue of size one. *)
Definition future_set (f : ThreadingFuture) (v : value) : res ThreadingFuture :=
  match _queue f with
  | None => Ok {| _queue := Some v |}
  | Some _ => Raise QueueFull
  end.

Inductive cls : Type := Video | Playlist.

Global Instance cls_eq_dec : EqDecision cls.
Proof. solve_decision. Defined.

(** An instance: its class, its [id] and the futures in its [__dict__],
    keyed by attribute name (['_title'], ['_length'], ...). *)
Record Entry : Type := {
  klass : cls;
  id : value;
  attrs : gmap string ThreadingFuture
}.

Inductive job : Type :=
  | Video_info (sublist : list nat)
  | Playlist_info (sublist : list nat)
  | Audio_url (self : nat)
  | Videos (self : nat).

(** A thread started on [ThreadPool.worker]: about to take the lock at the
    top of its loop, or outside the lock applying a job. *)
Inductive thread : Type :=
  | AtLock
  | Applying (j : job).

(** The class attributes of [ThreadPool], with the threads it has started. *)
Record ThreadPool : Type := {
  threads_max : Z;
  threads_active : Z;
  jobs : list job;
  threads : list thread
}.

Inductive api_call : Type :=
  | API_search (q : value)
  | API_list_videos (ids : list value)
  | API_list_playlists (ids : list value)
  | API_list_playlistitems (pid page : value) (max_results : Z).

Record stream : Type := { url : value }.

(** What [pafy.new(id)] hands back: the results of
    [getbestaudio('m4a', True)] and [getbest('m4a', True)]. *)
Record pafy_video : Type := {
  getbestaudio : res (option stream);
  getbest : res (option stream)
}.

Inductive log_entry : Type :=
  | error_deleted_restricted (vid : value)
  | error_thread (e : exn).

Definition cache_max_len : nat := 400.

Record World : Type := {
  heap : list Entry;
  cache : list (cls * value * nat);
  max_videos : Z;
  pool : ThreadPool;
  sent : list api_call;
  logged : list log_entry;
  service : list api_call → api_call → res value;
  pafy_new : value → res pafy_video
}.

Definition with_heap (h : list Entry) (w : World) : World :=
  {| heap := h; cache := cache w; max_videos := max_videos w; pool := pool w;
     sent := sent w; logged := logged w; service := service w;
     pafy_new := pafy_new w |}.

Definition with_cache (c : list (cls * value * nat)) (w : World) : World :=
  {| heap := heap w; cache := c; max_videos := max_videos w; pool := pool w;
     sent := sent w; logged := logged w; service := service w;
     pafy_new := pafy_new w |}.

Definition with_pool (p : ThreadPool) (w : World) : World :=
  {| heap := heap w; cache := cache w; max_videos := max_videos w; pool := p;
     sent := sent w; logged := logged w; service := service w;
     pafy_new := pafy_new w |}.

Definition with_sent (s : list api_call) (w : World) : World :=
  {| heap := heap w; cache := cache w; max_videos := max_videos w; pool := pool w;
     sent := s; logged := logged w; service := service w;
     pafy_new := pafy_new w |}.

Definition with_logged (l : list log_entry) (w : World) : World :=
  {| heap := heap w; cache := cache w; max_videos := max_videos w; pool := pool w;
     sent := sent w; logged := l; service := service w;
     pafy_new := pafy_new w |}.

(** ** State and exceptions

    A raised exception keeps the state reached so far. *)

Definition M (A : Type) : Type := World → World * res A.

Definition ret {A} (a : A) : M A := λ w, (w, Ok a).

Definition raise {A} (e : exn) : M A := λ w, (w, Raise e).

Definition lift {A} (r : res A) : M A := λ w, (w, r).

Definition bind {A B} (m : M A) (f : A → M B) : M B := λ w,
  match m w with
  | (w', Ok a) => f a w'
  | (w', Raise e) => (w', Raise e)
  end.

(** [try: m / except: h]. *)
Definition try_except {A} (m : M A) (h : exn → M A) : M A := λ w,
  match m w with
  | (w', Ok a) => (w', Ok a)
  | (w', Raise e) => h e w'
  end.

Notation "x <- m ;; k" := (bind m (λ x, k))
  (at level 100, m at next level, right associativity).
Notation "m ;;; k" := (bind m (λ _, k))
  (at level 100, right associativity).

Fixpoint mapM {A B} (f : A → M B) (l : list A) : M (list B) :=
  match l with
  | [] => ret []
  | a :: rest => b <- f a ;; bs <- mapM f rest ;; ret (b :: bs)
  end.

(** [filter(f, l)] for an [f] with side effects. *)
Fixpoint filterM {A} (f : A → M bool) (l : list A) : M (list A) :=
  match l with
  | [] => ret []
  | a :: rest =>
      keep <- f a ;; kept <- filterM f rest ;;
      ret (if keep : bool then a :: kept else kept)
  end.

Fixpoint forM {A} (f : A → M unit) (l : list A) : M unit :=
  match l with
  | [] => ret tt
  | a :: rest => f a ;;; forM f rest
  end.

Fixpoint res_mapM {A B} (f : A → res B) (l : list A) : res (list B) :=
  match l with
  | [] => Ok []
  | a :: rest =>
      res_bind (f a) (λ b, res_bind (res_mapM f rest) (λ bs, Ok (b :: bs)))
  end.

(** Reading and updating the instance a reference names. *)
Definition deref (r : nat) : M Entry := λ w,
  match heap w !! r with
  | Some e => (w, Ok e)
  | None => (w, Raise ReferenceError)
  end.

Definition set_attr (r : nat) (name : string) (f : ThreadingFuture) : M unit := λ w,
  match heap w !! r with
  | Some e =>
      (with_heap (<[r := {| klass := klass e; id := id e;
                            attrs := <[name := f]> (attrs e) |}]> (heap w)) w,
       Ok tt)
  | None => (w, Raise ReferenceError)
  end.

(** [self.name] for a future attribute. *)
Definition get_attr (r : nat) (name : string) : M ThreadingFuture :=
  e <- deref r ;;
  match attrs e !! name with
  | Some f => ret f
  | None => raise AttributeError
  end.

Definition get_max_videos : M Z := λ w, (w, Ok (max_videos w)).

Definition logger_error (l : log_entry) : M unit := λ w,
  (with_logged (logged w ++ [l]) w, Ok tt).

(** ** ThreadPool *)

(** The body of [ThreadPool.run], all of it under the lock. *)
Definition pool_run (j : job) (p : ThreadPool) : ThreadPool :=
  let jobs' := jobs p ++ [j] in
  if threads_active p <? threads_max p
  then {| threads_max := threads_max p;
          threads_active := threads_active p + 1;
          jobs := jobs';
          threads := threads p ++ [AtLock] |}
  else {| threads_max := threads_max p;
          threads_active := threads_active p;
          jobs := jobs';
          threads := threads p |}.

Definition ThreadPool_run (j : job) : M unit := λ w,
  (with_pool (pool_run j (pool w)) w, Ok tt).

(** The class body: no thread, no job. *)
Definition ThreadPool_init : ThreadPool :=
  {| threads_max := 15; threads_active := 0; jobs := []; threads := [] |}.

(** One atomic step of the pool: a call of [run] from any thread, or what a
    worker does between taking the lock and coming back to it. [jobs.pop()]
    takes the job appended last. *)
Inductive pool_step : ThreadPool → ThreadPool → Prop :=
  | step_run j p :
      pool_step p (pool_run j p)
  | step_pop i js j p :
      threads p !! i = Some AtLock →
      jobs p = js ++ [j] →
      pool_step p {| threads_max := threads_max p;
                     threads_active := threads_active p;
                     jobs := js;
                     threads := <[i := Applying j]> (threads p) |}
  | step_exit i p :
      threads p !! i = Some AtLock →
      jobs p = [] →
      pool_step p {| threads_max := threads_max p;
                     threads_active := threads_active p - 1;
                     jobs := [];
                     threads := delete i (threads p) |}
  | step_applied i j p :
      threads p !! i = Some (Applying j) →
      pool_step p {| threads_max := threads_max p;
                     threads_active := threads_active p;
                     jobs := jobs p;
                     threads := <[i := AtLock]> (threads p) |}.

(** ** API

    A call is recorded and answered by the remote service, which may fail. *)
Definition API (c : api_call) : M value := λ w,
  (with_sent (sent w ++ [c]) w, service w (sent w) c).

(** ** Entry.get and its LRU cache

    [cachetools.func.lru_cache(maxsize=cache_max_len)] keyed by [(cls, id)]:
    the list is kept most recently used first. *)

Definition same_key (c : cls) (i : value) (entry : cls * value * nat) : bool :=
  bool_decide (entry.1.1 = c) && key_eqb entry.1.2 i.

Definition Entry_get (c : cls) (i : value) : M nat := λ w,
  if hashable i then
    match find (same_key c i) (cache w) with
    | Some hit =>
        (with_cache (hit :: filter (λ x, negb (same_key c i x)) (cache w)) w,
         Ok hit.2)
    | None =>
        let obj := length (heap w) in
        (with_cache (take cache_max_len ((c, i, obj) :: cache w))
           (with_heap (heap w ++ [{| klass := c; id := i; attrs := ∅ |}]) w),
         Ok obj)
    end
  else (w, Raise TypeError).

(** ** Entry._add_futures *)

Definition add_future (obj : nat) (added : bool) (k : string) : M bool :=
  e <- deref obj ;;
  match attrs e !! ("_" +:+ k) with
  | None => set_attr obj ("_" +:+ k) new_future ;;; ret true
  | Some _ => ret added
  end.

Fixpoint add_from (obj : nat) (added : bool) (fields : list string) : M bool :=
  match fields with
  | [] => ret added
  | k :: rest => added' <- add_future obj added k ;; add_from obj added' rest
  end.

Definition add (fields : list string) (obj : nat) : M bool :=
  add_from obj false fields.

Definition _add_futures (l : list nat) (fields : list string) : M (list nat) :=
  filterM (add fields) l.

(** ** Entry._set_api_data *)

Definition self_max_videos (self : nat) : M Z :=
  e <- deref self ;;
  match klass e with
  | Playlist => get_max_videos
  | Video => raise AttributeError
  end.

Definition decode_thumbnails (item : value) : res value :=
  res_bind (subscript item "snippet") (λ snippet,
  res_bind (subscript snippet "thumbnails") (λ ths,
  res_bind (dict_items ths) (λ kvs,
  res_bind
    (res_mapM (λ kv : string * value, subscript kv.2 "url")
       (filter (λ kv : string * value,
                  bool_decide (kv.1 = "medium" ∨ kv.1 = "high")) kvs))
    (λ urls, Ok (VList urls))))).

(** The [if not item / elif ...] chain: the new binding of the local [val],
    which is left as it was when no branch applies. *)
Definition decode (self : nat) (k : string) (item : value)
    (val : option value) : M (option value) :=
  if negb (truthy item) then ret (Some VNone)
  else if String.eqb k "title" then
    v <- lift (res_bind (subscript item "snippet") (λ s, subscript s "title")) ;;
    ret (Some v)
  else if String.eqb k "channel" then
    v <- lift (res_bind (subscript item "snippet")
                 (λ s, subscript s "channelTitle")) ;;
    ret (Some v)
  else if String.eqb k "length" then
    v <- lift (decode_length item) ;; ret (Some v)
  else if String.eqb k "video_count" then
    n <- lift (res_bind (subscript item "contentDetails")
                 (λ d, subscript d "itemCount")) ;;
    m <- self_max_videos self ;;
    ret (Some (py2_min n m))
  else if String.eqb k "thumbnails" then
    v <- lift (decode_thumbnails item) ;; ret (Some v)
  else ret val.

(** One round of [for k in fields]. *)
Definition set_field (self : nat) (item : value) (val : option value)
    (k : string) : M (option value) :=
  let _k := "_" +:+ k in
  e <- deref self ;;
  future <- match attrs e !! _k with
            | Some f => ret f
            | None => set_attr self _k new_future ;;; ret new_future
            end ;;
  match _queue future with
  | Some _ => ret val
  | None =>
      val' <- decode self k item val ;;
      match val' with
      | Some v =>
          f <- lift (future_set future v) ;;
          set_attr self _k f ;;; ret val'
      | None => raise UnboundLocalError
      end
  end.

Fixpoint set_fields (self : nat) (item : value) (val : option value)
    (fields : list string) : M unit :=
  match fields with
  | [] => ret tt
  | k :: rest =>
      val' <- set_field self item val k ;; set_fields self item val' rest
  end.

Definition _set_api_data (self : nat) (fields : list string) (item : value) : M unit :=
  set_fields self item None fields.

(** ** The batched loaders *)

(** [range(start, stop, step)] for a positive step. *)
Fixpoint range_from (fuel start stop step : nat) : list nat :=
  match fuel with
  | O => []
  | S fuel' =>
      if (start <? stop)%nat
      then start :: range_from fuel' (start + step) stop step
      else []
  end.

Definition range (start stop step : nat) : list nat :=
  range_from stop start stop step.

(** [l[i:j]]. *)
Definition slice {A} (l : list A) (i j : nat) : list A :=
  take (j - i) (drop i l).

(** [d[k] = v] and [d.get(k)] on a dict with arbitrary hashable keys. *)
Fixpoint pydict_set (k v : value) (d : list (value * value)) : list (value * value) :=
  match d with
  | [] => [(k, v)]
  | (k', v') :: rest =>
      if key_eqb k' k then (k', v) :: rest else (k', v') :: pydict_set k v rest
  end.

Fixpoint pydict_get (k : value) (d : list (value * value)) : value :=
  match d with
  | [] => VNone
  | (k', v) :: rest => if key_eqb k' k then v else pydict_get k rest
  end.

Fixpoint index_from (d : list (value * value)) (items : list value)
    : res (list (value * value)) :=
  match items with
  | [] => Ok d
  | item :: rest =>
      res_bind (subscript item "id") (λ k,
      if hashable k then index_from (pydict_set k item d) rest
      else Raise TypeError)
  end.

(** [{item['id']: item for item in data['items']}]. *)
Definition index_items (data : value) : res (list (value * value)) :=
  res_bind (subscript data "items") (λ items,
  res_bind (py_iter items) (λ l, index_from [] l)).

Definition ids_of (sublist : list nat) : M (list value) :=
  mapM (λ x, e <- deref x ;; ret (id e)) sublist.

(** The closure [job(sublist)] of a [load_info]: [call] is
    [API.list_videos] or [API.list_playlists]. *)
Definition load_info_job (call : list value → api_call) (fields : list string)
    (sublist : list nat) : M unit :=
  dict <- try_except
            (ids <- ids_of sublist ;;
             data <- API (call ids) ;;
             lift (index_items data))
            (λ _, ret []) ;;
  forM (λ x,
          e <- deref x ;;
          if hashable (id e)
          then _set_api_data x fields (pydict_get (id e) dict)
          else raise TypeError)
       sublist.

Definition Video_fields : list string := ["title"; "length"; "channel"].

Definition Playlist_fields : list string :=
  ["title"; "video_count"; "thumbnails"; "channel"].

Definition Video_load_info_job : list nat → M unit :=
  load_info_job API_list_videos Video_fields.

Definition Playlist_load_info_job : list nat → M unit :=
  load_info_job API_list_playlists Playlist_fields.

(** The [for i in range(0, len(list), 50)] loop of a [load_info]. *)
Definition submit_chunks (mk : list nat → job) (l : list nat) : M unit :=
  forM (λ i, ThreadPool_run (mk (slice l i (i + 50))))
       (range 0 (length l) 50).

Definition Video_load_info (l : list nat) : M unit :=
  l' <- _add_futures l Video_fields ;;
  submit_chunks Video_info l'.

Definition Playlist_load_info (l : list nat) : M unit :=
  l' <- _add_futures l Playlist_fields ;;
  submit_chunks Playlist_info l'.

(** [self.load_info([self])]. *)
Definition load_info (self : nat) : M unit :=
  e <- deref self ;;
  match klass e with
  | Video => Video_load_info [self]
  | Playlist => Playlist_load_info [self]
  end.

(** ** Entry.search *)




(** ** Properties

    [async_property]: the wrapped function runs only while the future
    ['_' + name] is not in the instance's [__dict__]. *)
Definition async_property (name : string) (func : nat → M unit) (self : nat)
    : M ThreadingFuture :=
  e <- deref self ;;
  match attrs e !! ("_" +:+ name) with
  | Some _ => ret tt
  | None => func self
  end ;;;
  e' <- deref self ;;
  match attrs e' !! ("_" +:+ name) with
  | Some f => ret f
  | None => raise KeyError
  end.




Definition Playlist_video_count : nat → M ThreadingFuture :=
  async_property "video_count" load_info.


(** ** Video.audio_url *)

(** [self._audio_url.set(v)]. *)
Definition resolve (self : nat) (name : string) (v : value) : M unit :=
  f <- get_attr self name ;;
  f' <- lift (future_set f v) ;;
  set_attr self name f'.

Definition Video_audio_url_job (self : nat) : M unit := λ w,
  match (e <- deref self ;; ret (id e)) w with
  | (w0, Raise e) => (w0, Raise e)
  | (w0, Ok vid) =>
      match pafy_new w0 vid with
      | Raise _ =>
          (logger_error (error_deleted_restricted vid) ;;;
           resolve self "_audio_url" VNone) w0
      | Ok info =>
          (uri <- lift (getbestaudio info) ;;
           uri' <- match uri with
                   | Some s => ret (Some s)
                   | None => lift (getbest info)
                   end ;;
           match uri' with
           | Some s => resolve self "_audio_url" (url s)
           | None => raise AttributeError
           end) w0
      end
  end.

Definition Video_audio_url : nat → M ThreadingFuture :=
  async_property "audio_url" (λ self,
    set_attr self "_audio_url" new_future ;;;
    ThreadPool_run (Audio_url self)).

(** ** Playlist.videos *)

(** One round of [for item in data['items']]. *)
Definition create_member (item : value) : M nat :=
  vid <- lift (res_bind (subscript item "snippet") (λ s,
               res_bind (subscript s "resourceId") (λ r,
               subscript r "videoId"))) ;;
  video <- Entry_get Video vid ;;
  _set_api_data video ["title"] item ;;;
  ret video.

(** [page is not None]. *)
Definition is_not_None (v : value) : bool :=
  match v with
  | VNone => false
  | _ => true
  end.

(** [page is not None and len(all_videos) < self.max_videos]. *)
Definition videos_cond (self : nat) (all_videos : list nat) (page : value) : M bool :=
  if is_not_None page then
    m <- self_max_videos self ;;
    ret (Z.of_nat (length all_videos) <? m)
  else ret false.

(** The [try] block: [None] stands for the [break] of the handler. *)
Definition fetch_page (self : nat) (all_videos : list nat) (page : value)
    : M (option value) :=
  try_except
    (m <- self_max_videos self ;;
     e <- deref self ;;
     data <- API (API_list_playlistitems (id e) page
                    (Z.min (m - Z.of_nat (length all_videos)) 50)) ;;
     ret (Some data))
    (λ _, ret None).

(** The rest of the loop body: the new [page] and [all_videos]. *)
Definition take_page (all_videos : list nat) (data : value)
    : M (value * list nat) :=
  token <- lift (dict_get data "nextPageToken") ;;
  items <- lift (res_bind (subscript data "items") py_iter) ;;
  myvideos <- mapM create_member items ;;
  Video_load_info myvideos ;;;
  ret (or_None token, all_videos ++ myvideos).

(** How the [while] loop was left: its condition was false, or the handler
    of the [try] block ran [break]. *)
Inductive loop_exit : Type := cond_false | handler_break.

(** The [while] loop, [None] when [fuel] rounds did not reach its end;
    otherwise the way out with the locals [page] and [all_videos]. *)
Fixpoint videos_loop (fuel : nat) (self : nat) (all_videos : list nat)
    (page : value) (w : World)
    : option (World * res (loop_exit * value * list nat)) :=
  match fuel with
  | O => None
  | S fuel' =>
      match videos_cond self all_videos page w with
      | (w1, Raise e) => Some (w1, Raise e)
      | (w1, Ok false) => Some (w1, Ok (cond_false, page, all_videos))
      | (w1, Ok true) =>
          match fetch_page self all_videos page w1 with
          | (w2, Raise e) => Some (w2, Raise e)
          | (w2, Ok None) => Some (w2, Ok (handler_break, page, all_videos))
          | (w2, Ok (Some data)) =>
              match take_page all_videos data w2 with
              | (w3, Raise e) => Some (w3, Raise e)
              | (w3, Ok (page', all')) => videos_loop fuel' self all' page' w3
              end
          end
      end
  end.

Definition Playlist_videos_job (fuel : nat) (self : nat) (w : World)
    : option (World * res unit) :=
  match videos_loop fuel self [] (VStr "") w with
  | None => None
  | Some (w', Raise e) => Some (w', Raise e)
  | Some (w', Ok (_, _, all_videos)) =>
      Some (resolve self "_videos" (VList (map VObj all_videos)) w')
  end.

Definition Playlist_videos : nat → M ThreadingFuture :=
  async_property "videos" (λ self,
    set_attr self "_videos" new_future ;;;
    ThreadPool_run (Videos self)).

(** ** A worker applying a job

    [apply(f, args)] inside [try / except Exception]: the error is logged and
    the worker goes on. *)
Definition apply_job (fuel : nat) (j : job) (w : World) : option (World * res unit) :=
  match j with
  | Video_info sublist => Some (Video_load_info_job sublist w)
  | Playlist_info sublist => Some (Playlist_load_info_job sublist w)
  | Audio_url self => Some (Video_audio_url_job self w)
  | Videos self => Playlist_videos_job fuel self w
  end.

Definition worker_apply (fuel : nat) (j : job) (w : World) : option (World * res unit) :=
  match apply_job fuel j w with
  | None => None
  | Some (w', Ok tt) => Some (w', Ok tt)
  | Some (w', Raise e) => Some (logger_error (error_thread e) w')
  end.

(** What a reader sees: [future.get()] blocks ([None]) while the queue is
    empty. *)
Definition future_get (f : ThreadingFuture) : option value := _queue f.

(** ** Durations written out

    [PT[nH][nM][nS]] from the digits of each component that is present. *)

Definition all_digits (ds : string) : bool :=
  forallb is_digit (list_ascii_of_string ds).

Definition digits (g : option string) : Prop :=
  match g with
  | Some ds => ds ≠ "" ∧ all_digits ds = true
  | None => True
  end.

Definition written (g : option string) (u : ascii) : string :=
  match g with
  | Some ds => ds +:+ String u ""
  | None => ""
  end.

Definition iso_duration (h m s : option string) : string :=
  "PT" +:+ written h "H" +:+ written m "M" +:+ written s "S".

(** A record of the [videos] listing that has no [duration]. *)
Definition video_record_no_duration : value :=
  VDict [("id", VStr "7uj0hOIm2kY");
         ("snippet", VDict [("title", VStr "t"); ("channelTitle", VStr "c")]);
         ("contentDetails", VDict [])].

(** ** Observations and sample worlds *)

(** The future [name] of the instance [r] holds [v]. *)
Definition resolved_at (w : World) (r : nat) (name : string) (v : value) : Prop :=
  ∃ e, heap w !! r = Some e ∧ attrs e !! name = Some {| _queue := Some v |}.

(** The future [name] of the instance [r] exists and is still empty. *)
Definition pending_at (w : World) (r : nat) (name : string) : Prop :=
  ∃ e, heap w !! r = Some e ∧ attrs e !! name = Some {| _queue := None |}.

(** The module as loaded: nothing cached, the class defaults, and the given
    remote service and stream resolver. *)
Definition fresh_world (srv : list api_call → api_call → res value)
    (pafy : value → res pafy_video) : World :=
  {| heap := []; cache := []; max_videos := 60; pool := ThreadPool_init;
     sent := []; logged := []; service := srv; pafy_new := pafy |}.

Definition service_down : list api_call → api_call → res value :=
  λ _ _, Raise RemoteError.

Definition pafy_down : value → res pafy_video :=
  λ _, Raise RemoteError.

(** A video created through [Video.get] and given its title by a first
    record, as after a search. *)
Definition seeded_world : World :=
  fst ((obj <- Entry_get Video (VStr "7uj0hOIm2kY") ;;
        _set_api_data obj ["title"] (video_record "PT5M"))
         (fresh_world service_down pafy_down)).


(** ** Cache keys

    Two hashable ids are the same key when they agree after [True] and
    [False] are read as [1] and [0]. *)
Definition norm_key (v : value) : value :=
  match v with
  | VBool b => VInt (if b then 1 else 0)
  | _ => v
  end.

Definition nkey (k : cls * value) : cls * value := (k.1, norm_key k.2).

(** The cache holds hashable keys, at most one entry per key, and no more
    than [cache_max_len] entries. *)
Definition cache_ok (w : World) : Prop :=
  Forall (λ x : cls * value * nat, hashable x.1.2 = true) (cache w)
  ∧ NoDup ((λ x : cls * value * nat, nkey x.1) <$> cache w)
  ∧ (length (cache w) ≤ cache_max_len)%nat.

(** The state after a run of [get] calls. *)
Definition gets (ks : list (cls * value)) (w : World) : World :=
  foldl (λ w k, (Entry_get k.1 k.2 w).1) w ks.

(** The entry of key [K] is in the cache, it names [r], and everything used
    more recently has its key in [S]. *)
Definition held (K : cls * value) (r : nat) (S : list (cls * value))
    (l : list (cls * value * nat)) : Prop :=
  ∃ pre x post,
    l = pre ++ x :: post ∧ nkey x.1 = K ∧ x.2 = r ∧
    ∀ y, y ∈ pre → nkey y.1 ∈ S.

Fixpoint xs (n : nat) : string :=
  match n with
  | O => ""
  | S n' => String "x" (xs n')
  end.

(** [cache_max_len] ids of other videos. *)
Definition other_ids : list (cls * value) :=
  map (λ n, (Video, VStr (xs n))) (seq 1 cache_max_len).

(** A few lookups of two other keys. *)
Definition few_lookups : list (cls * value) :=
  [(Video, VStr "b"); (Playlist, VStr "a"); (Video, VStr "b")].

Definition few_keys : list (cls * value) :=
  [(Video, VStr "b"); (Playlist, VStr "a")].

(** ** Pool invariant and bursts *)

(** The counter is the number of started workers still alive, and it is
    within the maximum. *)
Definition pool_inv (p : ThreadPool) : Prop :=
  Z.of_nat (length (threads p)) = threads_active p
  ∧ threads_active p ≤ threads_max p.

(** [n] calls of [run] in a row. *)
Definition burst (n : nat) (j : job) (p : ThreadPool) : ThreadPool :=
  Nat.iter n (pool_run j) p.

(** ** Chunks, in the words of the specification

    The slices [[0,50)], [[50,100)], ... of a list, [ceil(N/50)] of them. *)
Definition chunks {A} (l : list A) : list (list A) :=
  map (λ j, take 50 (drop (50 * j) l)) (seq 0 ((length l + 49) / 50)).

(** [w'] differs from [w] in the heap only, where it has the same
    instances with the same class and id. *)
Definition heap_only (w w' : World) : Prop :=
  w' = with_heap (heap w') w
  ∧ length (heap w') = length (heap w)
  ∧ ∀ r e, heap w !! r = Some e →
           ∃ e', heap w' !! r = Some e' ∧ klass e' = klass e ∧ id e' = id e.

Definition valid (w : World) (r : nat) : Prop := (r < length (heap w))%nat.

(** [n] videos fetched one after the other into a fresh world; they are the
    instances [0 .. n-1]. *)
Definition videos_world (n : nat) : World :=
  gets (map (λ k, (Video, VStr (xs k))) (seq 1 n))
       (fresh_world service_down pafy_down).

(** ** Failed chunks *)

(** The [try] block of a [load_info] job ends in its handler: the request
    raises, or what it returns cannot be indexed by id. *)
Definition chunk_call_fails (w : World) (c : api_call) : Prop :=
  match service w (sent w) c with
  | Raise _ => True
  | Ok data => ∃ e, index_items data = Raise e
  end.

(** Every value resolved in [w'] was resolved in [w] already, or is [None]. *)
Definition only_none (w w' : World) : Prop :=
  ∀ r n v, resolved_at w' r n v → resolved_at w r n v ∨ v = VNone.

(** Every instance named has a hashable id. *)
Definition hashable_ids (w : World) (l : list nat) : Prop :=
  ∀ r, r ∈ l → ∃ e, heap w !! r = Some e ∧ hashable (id e) = true.

(** The seeded video after [Video.load_info([video])]: the futures of
    [length] and [channel] exist and one job is queued. *)
Definition seeded_loading : World := fst (Video_load_info [0%nat] seeded_world).

(** The outcome [out] of a job over [sublist] that started in [w]: no
    exception, and every field of every entity is resolved, to the value it
    had in [w] when it was resolved there and to [None] otherwise. *)
Definition settles_pending_to_none (w : World) (out : World * res unit)
    (sublist : list nat) (fields : list string) : Prop :=
  out.2 = Ok tt
  ∧ ∀ x k, x ∈ sublist → k ∈ fields →
      ∃ v, resolved_at out.1 x ("_" +:+ k) v
           ∧ (∀ u, resolved_at w x ("_" +:+ k) u → v = u)
           ∧ ((∀ u, ¬ resolved_at w x ("_" +:+ k) u) → v = VNone).

(** ** Stream resolvers for the audio url *)

(** [pafy.new] succeeds, but the video has no [m4a] stream: both
    [getbestaudio('m4a', True)] and [getbest('m4a', True)] return [None]. *)
Definition pafy_no_m4a : value → res pafy_video :=
  λ _, Ok {| getbestaudio := Ok None; getbest := Ok None |}.

(** A video fetched and its [audio_url] property read once: the future
    exists and the job is queued. *)
Definition audio_requested (pafy : value → res pafy_video) : World :=
  fst ((obj <- Entry_get Video (VStr "cF9z1b5HL7M") ;; Video_audio_url obj)
         (fresh_world service_down pafy)).

(** ** Search results *)

(** Every cached reference names an instance of the class it is cached
    for. *)
Definition cache_refs_ok (w : World) : Prop :=
  ∀ x : cls * value * nat, x ∈ cache w →
    ∃ e, heap w !! x.2 = Some e ∧ klass e = x.1.1.





(** [w'] has every instance of [w], of the same class, and every value
    resolved in [w]. *)
Definition extends (w w' : World) : Prop :=
  (∀ r n v, resolved_at w r n v → resolved_at w' r n v)
  ∧ (∀ r e, heap w !! r = Some e →
            ∃ e', heap w' !! r = Some e' ∧ klass e' = klass e).

(** ** Pagination *)

(** [w'] comes from [w] by writing only futures named in [names]: no
    request was sent, the remote service and the configured maximum are the
    same, and every instance of [w] is still there with its class, its id
    and its other futures. *)
Definition quiet (names : list string) (w w' : World) : Prop :=
  sent w' = sent w
  ∧ service w' = service w
  ∧ max_videos w' = max_videos w
  ∧ ∀ r e, heap w !! r = Some e →
      ∃ e', heap w' !! r = Some e' ∧ klass e' = klass e ∧ id e' = id e
            ∧ ∀ n, n ∉ names → attrs e' !! n = attrs e !! n.

(** The futures a page of members may write. *)
Definition video_futures : list string := ["_title"; "_length"; "_channel"].

(** A record of a page of members that the loop can take in. *)
Definition member_ok (item : value) : Prop :=
  ∃ snippet rid vid title,
    subscript item "snippet" = Ok snippet
    ∧ subscript snippet "resourceId" = Ok rid
    ∧ subscript rid "videoId" = Ok vid
    ∧ hashable vid = true
    ∧ subscript snippet "title" = Ok title.

(** A page the loop can take in, which moreover has a member or no
    continuation token. *)
Definition page_ok (data : value) : Prop :=
  ∃ kvs items,
    data = VDict kvs
    ∧ assoc "items" kvs = Some (VList items)
    ∧ Forall member_ok items
    ∧ (items ≠ [] ∨ or_None (default VNone (assoc "nextPageToken" kvs)) = VNone).

(** Every page the remote service returns is such a page. *)
Definition pages_ok (w : World) : Prop :=
  ∀ hist pid page n data,
    service w hist (API_list_playlistitems pid page n) = Ok data → page_ok data.

(** A remote service whose pages are empty and always name a next page. *)
Definition service_endless : list api_call → api_call → res value :=
  λ _ c, match c with
         | API_list_playlistitems _ _ _ =>
             Ok (VDict [("nextPageToken", VStr "CAUQAA"); ("items", VList [])])
         | _ => Raise RemoteError
         end.

Definition member_record (vid title : string) : value :=
  VDict [("snippet", VDict [("title", VStr title);
                            ("resourceId", VDict [("videoId", VStr vid)])])].

(** A remote service with a playlist of three members on two pages. *)
Definition service_two_pages : list api_call → api_call → res value :=
  λ _ c, match c with
         | API_list_playlistitems _ (VStr "") _ =>
             Ok (VDict [("nextPageToken", VStr "CAUQAA");
                        ("items", VList [member_record "v1" "one";
                                         member_record "v2" "two"])])
         | API_list_playlistitems _ _ _ =>
             Ok (VDict [("items", VList [member_record "v3" "three"])])
         | _ => Raise RemoteError
         end.

(** A playlist fetched and its [videos] property read once: the future
    exists and the job is queued. *)
Definition videos_requested (srv : list api_call → api_call → res value) : World :=
  fst ((obj <- Entry_get Playlist (VStr "PL1") ;; Playlist_videos obj)
         (fresh_world srv pafy_down)).

(** What holds at the head of every round of the loop of [self]: the cache
    names live instances, the service keeps to well-formed pages, [self] is
    a playlist and its [_videos] future is still empty. *)
Definition loop_inv (self : nat) (w : World) : Prop :=
  cache_refs_ok w
  ∧ pages_ok w
  ∧ (∃ e, heap w !! self = Some e ∧ klass e = Playlist)
  ∧ pending_at w self "_videos".

(** Why the loop was left, read off the state it was left in. *)
Definition exit_reason (w0 w : World) (why : loop_exit) (page : value)
    (all_videos : list nat) : Prop :=
  match why with
  | cond_false =>
      page = VNone ∨ max_videos w0 ≤ Z.of_nat (length all_videos)
  | handler_break =>
      ∃ s c err, sent w = s ++ [c] ∧ service w0 s c = Raise err
  end.

(** ** Sample playlist *)

(** A playlist fetched into a fresh world; it is the instance [0]. *)
Definition playlist_world : World :=
  fst (Entry_get Playlist (VStr "PL1") (fresh_world service_down pafy_down)).

Definition playlist_record (count : Z) : value :=
  VDict [("id", VStr "PL1");
         ("snippet", VDict [("title", VStr "a list");
                            ("channelTitle", VStr "a channel");
                            ("thumbnails", VDict [
                               ("default", VDict [("url", VStr "d.jpg")]);
                               ("medium", VDict [("url", VStr "m.jpg")]);
                               ("high", VDict [("url", VStr "h.jpg")])])]);
         ("contentDetails", VDict [("itemCount", VInt count)])].

(** ** Futures of an instance *)

(** [obj.__dict__.get(name)]. *)
Definition attr (w : World) (r : nat) (name : string) : option ThreadingFuture :=
  match heap w !! r with
  | Some e => attrs e !! name
  | None => None
  end.

(** The attribute names of a field group. *)
Definition futures_of (fields : list string) : list string :=
  map (λ k, "_" +:+ k) fields.

(** ** Submitting several jobs *)

(** [ThreadPool.run] called for the jobs of [js] one after the other. *)
Definition submit_all (js : list job) (p : ThreadPool) : ThreadPool :=
  foldl (λ p j, pool_run j p) p js.

(** [pafy.new] succeeds and the video has both an [m4a] audio stream and a
    combined stream. *)
Definition pafy_both : value → res pafy_video :=
  λ _, Ok {| getbestaudio := Ok (Some {| url := VStr "audio.m4a" |});
             getbest := Ok (Some {| url := VStr "video.m4a" |}) |}.

(** ** Page sizes *)




(** ** Answered chunks *)





(** ** What a job writes *)

(** From [w] to [w'] no future changed but those that [P] names by
    instance and attribute. *)
Definition touches_only (P : nat → string → Prop) (w w' : World) : Prop :=
  ∀ r n, ¬ P r n → attr w' r n = attr w r n.

(** A remote service whose record of the one video it knows has no
    [duration]. *)
Definition service_no_duration : list api_call → api_call → res value :=
  λ _ c, match c with
         | API_list_videos _ =>
             Ok (VDict [("items", VList [video_record_no_duration])])
         | _ => Raise RemoteError
         end.

(** Two videos after [Video.load_info] over both: their futures exist and
    the job of their chunk is queued; they are the instances [0] and [1]. *)
Definition two_videos_loading : World :=
  fst (Video_load_info [0; 1]%nat
         (gets [(Video, VStr "7uj0hOIm2kY"); (Video, VStr "gone")]
            (fresh_world service_no_duration pafy_down))).

(** ** Members of a playlist *)


(** Every instance of [w] is in [w'] with its class. *)
Definition same_classes (w w' : World) : Prop :=
  ∀ r e, heap w !! r = Some e →
    ∃ e', heap w' !! r = Some e' ∧ klass e' = klass e.


(** * Properties *)

(** ** The duration decoder *)

Lemma append_cons d ds x : String d ds +:+ x = String d (ds +:+ x).
Proof. reflexivity. Qed.

Lemma append_empty x : "" +:+ x = x.
Proof. reflexivity. Qed.

Lemma all_digits_cons d ds :
  all_digits (String d ds) = true → is_digit d = true ∧ all_digits ds = true.
Proof. unfold all_digits. simpl. apply andb_true_iff. Qed.

Lemma span_digits_stop ds c r :
  all_digits ds = true → is_digit c = false →
  span_digits (ds +:+ String c r) = (ds, String c r).
Proof.
  intros Hds Hc. induction ds as [|d ds IH].
  - rewrite append_empty. simpl. by rewrite Hc.
  - apply all_digits_cons in Hds as [Hd Hrest].
    rewrite append_cons. simpl. by rewrite Hd, (IH Hrest).
Qed.

Lemma component_present u ds r :
  ds ≠ "" → all_digits ds = true → is_digit u = false →
  component u (ds +:+ String u r) = (Some ds, r).
Proof.
  intros Hne Hds Hu. unfold component.
  rewrite (span_digits_stop _ _ _ Hds Hu).
  destruct ds as [|d ds]; [done|]. by rewrite Ascii.eqb_refl.
Qed.

Lemma component_other u c ds r :
  all_digits ds = true → is_digit c = false → c ≠ u →
  component u (ds +:+ String c r) = (None, ds +:+ String c r).
Proof.
  intros Hds Hc Hcu. unfold component.
  rewrite (span_digits_stop _ _ _ Hds Hc).
  destruct ds as [|d ds]; [done|].
  by destruct (Ascii.eqb_spec c u).
Qed.

Lemma component_empty u : component u "" = (None, "").
Proof. reflexivity. Qed.

Lemma written_app ds u r :
  (ds +:+ String u "") +:+ r = ds +:+ String u r.
Proof.
  induction ds as [|d ds IH]; [done|].
  rewrite !append_cons. by f_equal.
Qed.

Ltac component_step :=
  first
    [ rewrite component_present by done
    | rewrite component_other by done
    | rewrite component_empty ].

Lemma re_search_iso_duration h m s :
  digits h → digits m → digits s →
  re_search (iso_duration h m s)
  = Some {| hours := h; minutes := m; seconds := s |}.
Proof.
  intros Hh Hm Hs. unfold iso_duration.
  change ("PT" +:+ ?x) with (String "P" (String "T" x)).
  destruct h as [hs|], m as [ms|], s as [ss|]; simpl in Hh, Hm, Hs;
    repeat match goal with H : _ ∧ _ |- _ => destruct H end;
    cbn [written re_search match_here];
    rewrite ?append_empty, ?written_app;
    repeat component_step; done.
Qed.

(** C4 (as stated, refuted): a record whose [contentDetails] has no
    [duration] does not decode to 0; the subscript raises [KeyError]. *)
Lemma absent_duration_is_not_zero :
  decode_length video_record_no_duration = Raise KeyError ∧
  decode_length video_record_no_duration ≠ Ok (VInt 0).
Proof. split; [reflexivity | discriminate]. Qed.

(** C4 (amended): a duration [PT[nH][nM][nS]] decodes to
    [3600 * hours + 60 * minutes + seconds], a component that is not written
    counting as zero; [PT1H2M10S] gives 3730, [PT5M] gives 300, [PT0S] and
    the bare [PT] give 0; a record without the [duration] key raises
    [KeyError] instead of decoding to a number. *)
Theorem decode_length_duration (item details : value) (h m s : option string) :
  digits h → digits m → digits s →
  subscript item "contentDetails" = Ok details →
  subscript details "duration" = Ok (VStr (iso_duration h m s)) →
  decode_length item
  = Ok (VInt (int_group h * 3600 + int_group m * 60 + int_group s))
  ∧ decode_length (video_record "PT1H2M10S") = Ok (VInt 3730)
  ∧ decode_length (video_record "PT5M") = Ok (VInt 300)
  ∧ decode_length (video_record "PT0S") = Ok (VInt 0)
  ∧ decode_length (video_record "PT") = Ok (VInt 0)
  ∧ (∀ record kvs,
       subscript record "contentDetails" = Ok (VDict kvs) →
       assoc "duration" kvs = None →
       decode_length record = Raise KeyError).
Proof.
  intros Hh Hm Hs Hdetails Hduration.
  split; [|repeat split; try reflexivity].
  - unfold decode_length. rewrite Hdetails. cbn [res_bind].
    rewrite Hduration. cbn [res_bind].
    by rewrite re_search_iso_duration.
  - intros record kvs Hrec Hnone. unfold decode_length.
    rewrite Hrec. simpl. by rewrite Hnone.
Qed.

Lemma decode_length_duration_witness :
  decode_length (video_record "PT1H2M10S") = Ok (VInt (1 * 3600 + 2 * 60 + 10)).
Proof.
  refine (proj1 (decode_length_duration (video_record "PT1H2M10S")
            (VDict [("duration", VStr "PT1H2M10S")])
            (Some "1") (Some "2") (Some "10") _ _ _ _ _));
    first [ reflexivity | split; [discriminate | reflexivity] ].
Defined.

(** ** Single resolution *)

Lemma deref_spec r w :
  deref r w = (w, match heap w !! r with
                  | Some e => Ok e
                  | None => Raise ReferenceError
                  end).
Proof. unfold deref. by destruct (heap w !! r). Qed.

Lemma set_attr_keeps w self name f r n v :
  resolved_at w r n v →
  (r = self → n = name → _queue f = Some v) →
  resolved_at (set_attr self name f w).1 r n v.
Proof.
  intros (e & He & Hn) Hsame. unfold set_attr.
  destruct (heap w !! self) as [es|] eqn:Hs; simpl; [|by exists e].
  destruct (decide (r = self)) as [->|Hr].
  - rewrite Hs in He. injection He as ->.
    eexists. split.
    + apply list_lookup_insert_eq. by eapply lookup_lt_Some.
    + simpl. destruct (decide (n = name)) as [->|Hne].
      * rewrite lookup_insert_eq. destruct f as [q]. simpl in *.
        by rewrite (Hsame eq_refl eq_refl).
      * by rewrite lookup_insert_ne.
  - exists e. split; [|done].
    simpl. by rewrite list_lookup_insert_ne.
Qed.

Lemma self_max_videos_state self w : (self_max_videos self w).1 = w.
Proof.
  unfold self_max_videos, bind. rewrite deref_spec.
  destruct (heap w !! self) as [e|]; [|done]. by destruct (klass e).
Qed.

Lemma lift_bind_state {A B} (r : res A) (f : A → M B) w :
  (∀ a w', (f a w').1 = w') → (bind (lift r) f w).1 = w.
Proof. intros Hf. unfold bind, lift. destruct r; [apply Hf | done]. Qed.

Lemma decode_state self k item val w : (decode self k item val w).1 = w.
Proof.
  unfold decode.
  repeat match goal with
         | |- context [if ?b then _ else _] => destruct b
         end;
    try done; try (by apply lift_bind_state).
  apply lift_bind_state. intros n w'. unfold bind.
  pose proof (self_max_videos_state self w') as Hm.
  by destruct (self_max_videos self w') as [w'' [m|e]]; simpl in *; subst.
Qed.

Lemma resolved_at_lookup w r n v e :
  resolved_at w r n v → heap w !! r = Some e →
  attrs e !! n = Some {| _queue := Some v |}.
Proof. intros (e' & He' & Hn) He. congruence. Qed.

Lemma set_field_keeps w self item val k r n v :
  resolved_at w r n v →
  resolved_at (set_field self item val k w).1 r n v.
Proof.
  intros Hres. unfold set_field, bind at 1. rewrite deref_spec.
  destruct (heap w !! self) as [es|] eqn:Hs; [|done].
  assert (Hfresh : ∀ f, _queue f = None →
            attrs es !! ("_" +:+ k) = Some f ∨ attrs es !! ("_" +:+ k) = None →
            r = self → n = "_" +:+ k → False).
  { intros f Hq Hf -> ->.
    pose proof (resolved_at_lookup _ _ _ _ _ Hres Hs) as Hl.
    destruct Hf as [Hf|Hf]; rewrite Hf in Hl; [|done].
    injection Hl as ->. done. }
  assert (Hstore : ∀ w1 f,
            resolved_at w1 r n v → _queue f = None →
            attrs es !! ("_" +:+ k) = Some f ∨ attrs es !! ("_" +:+ k) = None →
            resolved_at
              (match _queue f with
               | Some _ => ret val
               | None =>
                   val' <- decode self k item val ;;
                   match val' with
                   | Some v0 =>
                       f' <- lift (future_set f v0) ;;
                       set_attr self ("_" +:+ k) f' ;;; ret val'
                   | None => raise UnboundLocalError
                   end
               end w1).1 r n v).
  { intros w1 f Hw1 Hq Hf. rewrite Hq. unfold bind at 1.
    pose proof (decode_state self k item val w1) as Hd.
    destruct (decode self k item val w1) as [w2 [[v0|]|e]];
      simpl in Hd; subst w2; try done.
    unfold bind, lift, future_set. rewrite Hq.
    pose proof (set_attr_keeps w1 self ("_" +:+ k) {| _queue := Some v0 |}
                  r n v Hw1) as Hk.
    destruct (set_attr self ("_" +:+ k) {| _queue := Some v0 |} w1)
      as [w3 [[]|e]]; simpl in *; apply Hk; intros; exfalso; eauto. }
  destruct (attrs es !! ("_" +:+ k)) as [f|] eqn:Hattr.
  - unfold bind, ret at 1. destruct (_queue f) as [q|] eqn:Hq; [done|].
    specialize (Hstore w f Hres Hq (or_introl eq_refl)).
    by rewrite Hq in Hstore.
  - unfold bind at 1. unfold bind at 1.
    pose proof (set_attr_keeps w self ("_" +:+ k) new_future r n v Hres) as Hk.
    destruct (set_attr self ("_" +:+ k) new_future w) as [w1 [[]|e]];
      simpl in Hk;
      [|apply Hk; intros; exfalso; apply (Hfresh new_future); auto].
    unfold ret at 1.
    apply (Hstore w1 new_future); [|done|by right].
    apply Hk. intros; exfalso; apply (Hfresh new_future); auto.
Qed.

Lemma set_fields_keeps fields w self item val r n v :
  resolved_at w r n v →
  resolved_at (set_fields self item val fields w).1 r n v.
Proof.
  revert w val. induction fields as [|k rest IH]; intros w val Hres; [done|].
  simpl. unfold bind.
  pose proof (set_field_keeps w self item val k r n v Hres) as Hk.
  destruct (set_field self item val k w) as [w1 [val'|e]]; simpl in Hk; [|done].
  by apply IH.
Qed.





(** ** Identity caching *)

Lemma key_eqb_norm a b :
  hashable a = true → key_eqb a b = true ↔ norm_key a = norm_key b.
Proof.
  intros Ha.
  destruct a as [|x|n|s|l|kvs|r], b as [|y|m|t|l'|kvs'|q];
    simpl in *; try done;
    repeat match goal with x : bool |- _ => destruct x end;
    simpl; try (split; [done | congruence]); try (split; congruence).
  - rewrite Z.eqb_eq. split; congruence.
  - rewrite Z.eqb_eq. split; congruence.
  - rewrite Z.eqb_eq. split; congruence.
  - rewrite Z.eqb_eq. split; congruence.
  - rewrite Z.eqb_eq. split; congruence.
  - rewrite String.eqb_eq. split; congruence.
  - rewrite Nat.eqb_eq. split; congruence.
Qed.

Lemma same_key_spec c i (x : cls * value * nat) :
  hashable x.1.2 = true →
  same_key c i x = true ↔ nkey x.1 = (c, norm_key i).
Proof.
  intros Hx. unfold same_key, nkey. rewrite andb_true_iff, bool_decide_eq_true.
  rewrite (key_eqb_norm _ _ Hx). split.
  - by intros [-> ->].
  - intros [= -> ->]. done.
Qed.

Lemma find_split {A} (f : A → bool) l x :
  find f l = Some x →
  ∃ pre post, l = pre ++ x :: post ∧ f x = true ∧ ∀ y, y ∈ pre → f y = false.
Proof.
  induction l as [|a l IH]; simpl; [done|].
  destruct (f a) eqn:Hfa.
  - intros [= ->]. exists [], l. split_and!; [done|done|].
    intros y Hy. by apply elem_of_nil in Hy.
  - intros Hfind. destruct (IH Hfind) as (pre & post & -> & Hx & Hpre).
    exists (a :: pre), post. split_and!; [done|done|].
    intros y [->|Hy]%elem_of_cons; auto.
Qed.

Lemma find_none_all {A} (f : A → bool) l y :
  find f l = None → y ∈ l → f y = false.
Proof.
  induction l as [|a l IH]; simpl; [by intros _ ?%elem_of_nil|].
  destruct (f a) eqn:Hfa; [done|].
  intros Hfind [->|Hy]%elem_of_cons; auto.
Qed.

Lemma find_first {A} (f : A → bool) pre x post :
  (∀ y, y ∈ pre → f y = false) → f x = true →
  find f (pre ++ x :: post) = Some x.
Proof.
  intros Hpre Hx. induction pre as [|a pre IH]; simpl; [by rewrite Hx|].
  rewrite (Hpre a) by by left. apply IH. intros y Hy. apply Hpre. by right.
Qed.

Lemma NoDup_fmap_inj_on {A B} (f : A → B) l a b :
  NoDup (f <$> l) → a ∈ l → b ∈ l → f a = f b → a = b.
Proof.
  induction l as [|c l IH]; [by intros _ ?%elem_of_nil|].
  rewrite fmap_cons.
  intros [Hc Hl]%NoDup_cons [->|Ha]%elem_of_cons [->|Hb]%elem_of_cons Hab;
    auto.
  - exfalso. apply Hc. rewrite Hab. by apply list_elem_of_fmap_2.
  - exfalso. apply Hc. rewrite <- Hab. by apply list_elem_of_fmap_2.
Qed.

Lemma filter_all {A} (f : A → bool) (l : list A) :
  (∀ y, y ∈ l → f y = true) → filter (λ x, f x) l = l.
Proof.
  induction l as [|a l IH]; intros Hall; [done|].
  rewrite filter_cons_True.
  - f_equal. apply IH. intros y Hy. apply Hall. by right.
  - rewrite (Hall a); [done | by left].
Qed.

Lemma elem_of_around {A} (pre post : list A) x y :
  y ∈ pre ++ post → y ∈ pre ++ x :: post.
Proof.
  rewrite !elem_of_app, elem_of_cons. tauto.
Qed.

Lemma elem_of_middle {A} (pre post : list A) x : x ∈ pre ++ x :: post.
Proof. rewrite elem_of_app, elem_of_cons. tauto. Qed.

(** A hit moves the entry to the front and leaves the others in order. *)
Lemma cache_hit_shape c i w hit :
  cache_ok w → find (same_key c i) (cache w) = Some hit →
  ∃ pre post,
    cache w = pre ++ hit :: post ∧
    filter (λ x, negb (same_key c i x)) (cache w) = pre ++ post ∧
    nkey hit.1 = (c, norm_key i) ∧
    ∀ y, y ∈ pre ++ post → nkey y.1 ≠ (c, norm_key i).
Proof.
  intros (Hhash & Hnodup & _) Hfind.
  destruct (find_split _ _ _ Hfind) as (pre & post & Heq & Hhit & Hpre).
  rewrite Heq in Hhash, Hnodup.
  assert (Hkey : nkey hit.1 = (c, norm_key i)).
  { apply same_key_spec; [|done].
    rewrite Forall_forall in Hhash. apply Hhash, elem_of_middle. }
  assert (Hothers : ∀ y, y ∈ pre ++ post → nkey y.1 ≠ (c, norm_key i)).
  { intros y Hy Hk. rewrite <- Hkey in Hk.
    assert (y = hit) as ->.
    { apply (NoDup_fmap_inj_on (λ x : cls * value * nat, nkey x.1)
               (pre ++ hit :: post));
        [done | by apply elem_of_around | apply elem_of_middle | done]. }
    rewrite fmap_app, fmap_cons in Hnodup.
    apply NoDup_app in Hnodup as (_ & Hdisj & Hright).
    apply NoDup_cons in Hright as [Hnot _].
    apply elem_of_app in Hy as [Hy|Hy].
    - apply (Hdisj (nkey hit.1)); [|by left].
      by apply (list_elem_of_fmap_2 (λ x : cls * value * nat, nkey x.1)).
    - apply Hnot.
      by apply (list_elem_of_fmap_2 (λ x : cls * value * nat, nkey x.1)). }
  exists pre, post. split_and!; [done| |done|done].
  rewrite Heq, filter_app, filter_cons_False.
  - rewrite <- filter_app. apply (filter_all (λ x, negb (same_key c i x))).
    intros y Hy. apply negb_true_iff.
    destruct (same_key c i y) eqn:Hs; [|done].
    exfalso. apply (Hothers y Hy). apply same_key_spec; [|done].
    rewrite Forall_forall in Hhash. by apply Hhash, elem_of_around.
  - rewrite Hhit. simpl. tauto.
Qed.

(** What one [get] does to the cache: nothing for an unhashable id, a move
    to the front on a hit, a new first entry on a miss. *)
Lemma Entry_get_cache c i w :
  cache_ok w →
  (hashable i = false ∧ Entry_get c i w = (w, Raise TypeError))
  ∨ (hashable i = true ∧ ∃ hit pre post,
       cache w = pre ++ hit :: post ∧
       nkey hit.1 = (c, norm_key i) ∧
       (∀ y, y ∈ pre ++ post → nkey y.1 ≠ (c, norm_key i)) ∧
       cache (Entry_get c i w).1 = hit :: pre ++ post ∧
       heap (Entry_get c i w).1 = heap w ∧
       (Entry_get c i w).2 = Ok hit.2)
  ∨ (hashable i = true ∧
       (∀ y, y ∈ cache w → nkey y.1 ≠ (c, norm_key i)) ∧
       cache (Entry_get c i w).1
         = take cache_max_len ((c, i, length (heap w)) :: cache w) ∧
       heap (Entry_get c i w).1
         = heap w ++ [{| klass := c; id := i; attrs := ∅ |}] ∧
       (Entry_get c i w).2 = Ok (length (heap w))).
Proof.
  intros Hok. unfold Entry_get.
  destruct (hashable i) eqn:Hi; [|by left]. right.
  destruct (find (same_key c i) (cache w)) as [hit|] eqn:Hfind.
  - left. split; [done|].
    destruct (cache_hit_shape c i w hit Hok Hfind)
      as (pre & post & Heq & Hfilter & Hkey & Hothers).
    exists hit, pre, post. simpl. by rewrite Hfilter.
  - right. split; [done|]. split; [|done].
    intros y Hy Hk. destruct Hok as (Hhash & _ & _).
    rewrite Forall_forall in Hhash.
    apply (same_key_spec c i y (Hhash y Hy)) in Hk.
    by rewrite (find_none_all _ _ _ Hfind Hy) in Hk.
Qed.

Lemma Entry_get_cache_ok c i w : cache_ok w → cache_ok (Entry_get c i w).1.
Proof.
  intros Hok.
  destruct (Entry_get_cache c i w Hok)
    as [[_ ->]|[(Hi & hit & pre & post & Heq & Hkey & Hothers & Hc & _ & _)
               |(Hi & Hfresh & Hc & _ & _)]]; [done| |].
  - destruct Hok as (Hhash & Hnodup & Hlen). unfold cache_ok.
    rewrite Hc. rewrite Heq in Hhash, Hnodup, Hlen. split_and!.
    + rewrite Forall_forall in Hhash |- *. intros y [->|Hy]%elem_of_cons.
      * apply Hhash, elem_of_middle.
      * by apply Hhash, elem_of_around.
    + rewrite fmap_cons. apply NoDup_cons. split.
      * intros (y & Hy1 & Hy2)%list_elem_of_fmap.
        apply (Hothers y Hy2). by rewrite <- Hy1.
      * rewrite fmap_app, fmap_cons in Hnodup. rewrite fmap_app.
        apply NoDup_app in Hnodup as (Hl & Hdisj & [_ Hr]%NoDup_cons).
        apply NoDup_app. split_and!; [done| |done].
        intros x Hx Hx'. apply (Hdisj x Hx). by right.
    + rewrite length_app, length_cons in Hlen. simpl. rewrite length_app. lia.
  - destruct Hok as (Hhash & Hnodup & Hlen). unfold cache_ok.
    rewrite Hc. split_and!.
    + apply Forall_take. by constructor.
    + apply (sublist_NoDup _
               ((λ x : cls * value * nat, nkey x.1)
                  <$> (c, i, length (heap w)) :: cache w)).
      * rewrite fmap_cons. apply NoDup_cons. split; [|done].
        intros (y & Hy1 & Hy2)%list_elem_of_fmap.
        apply (Hfresh y Hy2). by rewrite <- Hy1.
      * apply fmap_sublist, sublist_take.
    + rewrite length_take. lia.
Qed.

Lemma app_cons_unique {A} (a b a' b' : list A) x :
  x ∉ a → x ∉ a' → a ++ x :: b = a' ++ x :: b' → a = a' ∧ b = b'.
Proof.
  revert a'. induction a as [|y a IH]; intros [|y' a'] Ha Ha' Heq;
    simpl in Heq.
  - by injection Heq as ->.
  - injection Heq as <- _. exfalso. apply Ha'. by left.
  - injection Heq as -> _. exfalso. apply Ha. by left.
  - injection Heq as -> Heq.
    destruct (IH a') as [-> ->]; [| |done|done].
    + intros ?. apply Ha. by right.
    + intros ?. apply Ha'. by right.
Qed.

Lemma NoDup_middle {A} (a b : list A) x :
  NoDup (a ++ x :: b) → (x ∉ a) ∧ (x ∉ b).
Proof.
  intros (_ & Hdisj & [Hb _]%NoDup_cons)%NoDup_app. split; [|done].
  intros Hx. apply (Hdisj x Hx). by left.
Qed.

Lemma take_keeps_prefix {A} (pre post : list A) x n :
  (length pre < n)%nat →
  ∃ post', take n (pre ++ x :: post) = pre ++ x :: post'.
Proof.
  intros Hlen. rewrite take_app, take_ge by lia.
  destruct (n - length pre)%nat as [|m] eqn:Hm; [lia|].
  by exists (take m post).
Qed.

Lemma keyed_prefix_short (S : list (cls * value)) (pre : list (cls * value * nat)) :
  NoDup ((λ x : cls * value * nat, nkey x.1) <$> pre) →
  (∀ y, y ∈ pre → nkey y.1 ∈ S) →
  (length pre ≤ length S)%nat.
Proof.
  intros Hnodup Hsub.
  rewrite <- (length_fmap (λ x : cls * value * nat, nkey x.1)).
  apply submseteq_length, NoDup_submseteq; [done|].
  intros k (y & -> & Hy)%list_elem_of_fmap. by apply Hsub.
Qed.

(** One more [get] keeps the entry of [K] in the cache, as long as the keys
    asked for since its last use stay within [S]. *)
Lemma held_step K r (S : list (cls * value)) c i w :
  cache_ok w → NoDup S → (length S < cache_max_len)%nat →
  held K r S (cache w) →
  nkey (c, i) = K ∨ nkey (c, i) ∈ S →
  held K r S (cache (Entry_get c i w).1).
Proof.
  intros Hok HS Hlen (pre & x & post & Heq & Hx & Hr & Hpre) Hreq.
  pose proof Hok as (Hhash & Hnodup & _).
  pose proof (NoDup_fmap_1 _ _ Hnodup) as Hnd.
  destruct (Entry_get_cache c i w Hok)
    as [[_ ->]|[(Hi & hit & a & b & Heq' & Hkey & Hothers & Hc & _ & _)
               |(Hi & Hfresh & Hc & _ & _)]].
  - by exists pre, x, post.
  - rewrite Hc.
    assert (Hhit : hit ∈ pre ++ x :: post).
    { rewrite <- Heq, Heq'. apply elem_of_middle. }
    rewrite Heq' in Hnd. destruct (NoDup_middle _ _ _ Hnd) as [Hna Hnb].
    apply elem_of_app in Hhit as [Hhit|[->|Hhit]%elem_of_cons].
    + apply list_elem_of_split in Hhit as (p1 & p2 & ->).
      rewrite <- app_assoc in Heq. simpl in Heq.
      rewrite Heq' in Heq.
      assert (hit ∉ p1) as Hp1.
      { rewrite Heq in Hnd. by apply NoDup_middle in Hnd as [? _]. }
      destruct (app_cons_unique _ _ _ _ _ Hna Hp1 Heq) as [-> ->].
      exists (hit :: p1 ++ p2), x, post. split_and!; [|done|done|].
      * simpl. by rewrite <- app_assoc.
      * intros y Hy. apply Hpre.
        apply elem_of_cons in Hy as [->|Hy]; [apply elem_of_middle|].
        by apply elem_of_around.
    + exists [], x, (a ++ b). split_and!; [done|done|done|].
      intros y Hy. by apply elem_of_nil in Hy.
    + apply list_elem_of_split in Hhit as (q1 & q2 & ->).
      rewrite Heq' in Heq.
      change (pre ++ x :: q1 ++ hit :: q2)
        with (pre ++ (x :: q1) ++ hit :: q2) in Heq.
      rewrite app_assoc in Heq.
      assert (hit ∉ pre ++ x :: q1) as Hq1.
      { rewrite Heq in Hnd. by apply NoDup_middle in Hnd as [? _]. }
      destruct (app_cons_unique _ _ _ _ _ Hna Hq1 Heq) as [-> ->].
      exists (hit :: pre), x, (q1 ++ q2). split_and!; [|done|done|].
      * simpl. by rewrite <- app_assoc.
      * intros y [->|Hy]%elem_of_cons; [|by apply Hpre].
        destruct Hreq as [Hreq|Hreq]; [|by rewrite Hkey].
        exfalso. apply (Hothers x).
        -- apply elem_of_app. left. apply elem_of_middle.
        -- by rewrite Hx, <- Hreq.
  - rewrite Hc.
    assert (Hin : nkey (c, i) ∈ S).
    { destruct Hreq as [Hreq|Hreq]; [|done].
      exfalso. apply (Hfresh x).
      - rewrite Heq. apply elem_of_middle.
      - by rewrite Hx, <- Hreq. }
    assert (Hshort : (length ((c, i, length (heap w)) :: pre) < cache_max_len)%nat).
    { eapply Nat.le_lt_trans; [|exact Hlen].
      apply keyed_prefix_short.
      - rewrite fmap_cons. apply NoDup_cons. split.
        + intros (y & Hy1 & Hy2)%list_elem_of_fmap.
          apply (Hfresh y); [|by rewrite <- Hy1].
          rewrite Heq. apply elem_of_app. by left.
        + rewrite Heq, fmap_app in Hnodup.
          by apply NoDup_app in Hnodup as (? & _ & _).
      - intros y [->|Hy]%elem_of_cons; [done | by apply Hpre]. }
    rewrite Heq.
    destruct (take_keeps_prefix ((c, i, length (heap w)) :: pre) post x
                cache_max_len Hshort) as [post' Htake].
    exists ((c, i, length (heap w)) :: pre), x, post'.
    split_and!; [done|done|done|].
    intros y [->|Hy]%elem_of_cons; [done | by apply Hpre].
Qed.

Lemma gets_held K r (S : list (cls * value)) ks w :
  cache_ok w → NoDup S → (length S < cache_max_len)%nat →
  held K r S (cache w) →
  (∀ k, k ∈ ks → nkey k = K ∨ nkey k ∈ S) →
  cache_ok (gets ks w) ∧ held K r S (cache (gets ks w)).
Proof.
  intros Hok HS Hlen. revert w Hok.
  induction ks as [|[c i] ks IH]; intros w Hok Hheld Hks; [done|].
  simpl. apply IH.
  - by apply Entry_get_cache_ok.
  - apply held_step; try done. apply Hks. by left.
  - intros k Hk. apply Hks. by right.
Qed.

Lemma held_after_get c i w r (S : list (cls * value)) :
  cache_ok w → (Entry_get c i w).2 = Ok r →
  hashable i = true ∧ held (nkey (c, i)) r S (cache (Entry_get c i w).1).
Proof.
  intros Hok Hget.
  destruct (Entry_get_cache c i w Hok)
    as [[_ Hraise]|[(Hi & hit & a & b & _ & Hkey & _ & Hc & _ & Hres)
                   |(Hi & _ & Hc & _ & Hres)]].
  - by rewrite Hraise in Hget.
  - split; [done|]. rewrite Hc. exists [], hit, (a ++ b).
    split_and!; [done|done|congruence|].
    intros y Hy. by apply elem_of_nil in Hy.
  - split; [done|]. rewrite Hc.
    destruct (take_keeps_prefix [] (cache w) (c, i, length (heap w))
                cache_max_len) as [post' Htake].
    { unfold cache_max_len. simpl. lia. }
    rewrite !app_nil_l in Htake. rewrite Htake.
    exists [], (c, i, length (heap w)), post'.
    split_and!; [done|done|simpl; congruence|].
    intros y Hy. by apply elem_of_nil in Hy.
Qed.

Lemma get_of_held c i w r (S : list (cls * value)) :
  cache_ok w → hashable i = true →
  held (nkey (c, i)) r S (cache w) →
  (Entry_get c i w).2 = Ok r.
Proof.
  intros Hok Hi (pre & x & post & Heq & Hx & Hr & _).
  pose proof Hok as (_ & Hnodup & _).
  destruct (Entry_get_cache c i w Hok)
    as [[Hno _]|[(_ & hit & a & b & Heq' & Hkey & _ & _ & _ & Hres)
                |(_ & Hfresh & _ & _ & _)]].
  - congruence.
  - rewrite Hres. f_equal. rewrite <- Hr. f_equal.
    apply (NoDup_fmap_inj_on (λ x : cls * value * nat, nkey x.1) (cache w));
      [done| | |].
    + rewrite Heq'. apply elem_of_middle.
    + rewrite Heq. apply elem_of_middle.
    + by rewrite Hkey, Hx.
  - exfalso. apply (Hfresh x); [|done].
    rewrite Heq. apply elem_of_middle.
Qed.

(** C5 (as stated, refuted): after [cache_max_len] lookups of other ids the
    entry of a video has been evicted; the next [get] of its id builds a
    second instance, and both instances carry the same class and id. *)
Lemma evicted_entry_is_built_again :
  let w0 := fresh_world service_down pafy_down in
  let w1 := (Entry_get Video (VStr "a") w0).1 in
  let w2 := gets other_ids w1 in
  let w3 := (Entry_get Video (VStr "a") w2).1 in
  (Entry_get Video (VStr "a") w0).2 = Ok 0%nat
  ∧ (Entry_get Video (VStr "a") w2).2 = Ok 401%nat
  ∧ (λ e, (klass e, id e)) <$> heap w3 !! 0%nat = Some (Video, VStr "a")
  ∧ (λ e, (klass e, id e)) <$> heap w3 !! 401%nat = Some (Video, VStr "a").
Proof. vm_compute. repeat split. Qed.

(** C5 (amended): two calls of [get] for one class and id return the same
    instance when the calls in between name fewer than [cache_max_len] (400)
    distinct other keys, whatever their order and number; and the cache
    never holds two entries for one key. *)
Theorem get_returns_the_cached_instance (w : World) (c : cls) (i : value)
    (r : nat) (ks S : list (cls * value)) :
  cache_ok w →
  (Entry_get c i w).2 = Ok r →
  NoDup S → (length S < cache_max_len)%nat →
  (∀ k, k ∈ ks → nkey k = nkey (c, i) ∨ nkey k ∈ S) →
  (Entry_get c i (gets ks (Entry_get c i w).1)).2 = Ok r
  ∧ cache_ok (gets ks (Entry_get c i w).1).
Proof.
  intros Hok Hget HS Hlen Hks.
  destruct (held_after_get c i w r S Hok Hget) as [Hi Hheld].
  destruct (gets_held (nkey (c, i)) r S ks (Entry_get c i w).1)
    as [Hok' Hheld']; try done.
  { by apply Entry_get_cache_ok. }
  split; [|done]. by apply (get_of_held c i _ r S).
Qed.

Lemma get_returns_the_cached_instance_witness :
  (Entry_get Video (VStr "a")
     (gets few_lookups
        (Entry_get Video (VStr "a") (fresh_world service_down pafy_down)).1)).2
  = Ok 0%nat.
Proof.
  refine (proj1 (get_returns_the_cached_instance
                   (fresh_world service_down pafy_down) Video (VStr "a") 0
                   few_lookups few_keys _ _ _ _ _)).
  - split_and!; [constructor | constructor | simpl; lia].
  - reflexivity.
  - apply NoDup_cons. split; [|apply NoDup_singleton].
    rewrite list_elem_of_singleton. discriminate.
  - unfold cache_max_len. simpl. lia.
  - intros k Hk. right. unfold few_lookups, few_keys in *.
    rewrite !elem_of_cons in Hk.
    destruct Hk as [->|[->|[->|Hk]]];
      [by left | right; by left | by left | by apply elem_of_nil in Hk].
Defined.

(** ** The worker pool *)

Section Pool.

Variable p0 : ThreadPool.
Hypothesis no_thread : threads p0 = [].
Hypothesis no_active : threads_active p0 = 0.
Hypothesis max_nonneg : 0 ≤ threads_max p0.

Lemma pool_inv_start : pool_inv p0.
Proof. unfold pool_inv. rewrite no_thread, no_active. simpl. lia. Qed.

Lemma pool_step_max p q : pool_step p q → threads_max q = threads_max p.
Proof.
  destruct 1; try done. unfold pool_run.
  by destruct (threads_active p <? threads_max p).
Qed.

Lemma pool_step_inv p q : pool_step p q → pool_inv p → pool_inv q.
Proof.
  unfold pool_inv. intros Hstep [Hcount Hmax].
  destruct Hstep as [j p|i js j p Hi Hjobs|i p Hi Hjobs|i j p Hi]; simpl.
  - unfold pool_run.
    destruct (threads_active p <? threads_max p) eqn:Hlt; simpl.
    + apply Z.ltb_lt in Hlt. rewrite length_app. simpl. lia.
    + done.
  - by rewrite length_insert.
  - rewrite length_delete by eauto.
    apply lookup_lt_Some in Hi. lia.
  - by rewrite length_insert.
Qed.

Lemma reachable_inv p :
  rtc pool_step p0 p → pool_inv p ∧ threads_max p = threads_max p0.
Proof.
  revert p.
  apply (rtc_ind_r (R := pool_step)
           (λ p, pool_inv p ∧ threads_max p = threads_max p0)).
  - split; [apply pool_inv_start | done].
  - intros p q _ Hstep [Hinv Hmax]. split.
    + by apply (pool_step_inv p).
    + by rewrite (pool_step_max p q Hstep).
Qed.

(** C8: in every state the pool can reach by calls of [run] and by worker
    steps, the active-worker counter equals the number of live workers and
    does not exceed [threads_max] (15 in the class body), however many
    jobs are submitted. *)
Theorem active_workers_never_exceed_max (p : ThreadPool) :
  rtc pool_step p0 p →
  threads_active p ≤ threads_max p0
  ∧ Z.of_nat (length (threads p)) = threads_active p
  ∧ threads_max p = threads_max p0.
Proof.
  intros Hreach. destruct (reachable_inv p Hreach) as [[Hcount Hmax] Hsame].
  split_and!; [lia | done | done].
Qed.

End Pool.

Lemma burst_reachable n j p : rtc pool_step p (burst n j p).
Proof.
  induction n as [|n IH]; [done|].
  unfold burst in *. simpl. eapply rtc_r; [exact IH | constructor].
Qed.

Lemma active_workers_never_exceed_max_witness :
  threads_active (burst 25 (Audio_url 0) ThreadPool_init) ≤ 15.
Proof.
  refine (proj1 (active_workers_never_exceed_max ThreadPool_init
                   eq_refl eq_refl _ (burst 25 (Audio_url 0) ThreadPool_init)
                   (burst_reachable 25 (Audio_url 0) ThreadPool_init))).
  simpl. lia.
Defined.

(** ** Frames: what the setters leave alone *)

Lemma heap_only_refl w : heap_only w w.
Proof. split_and!; [by destruct w | done | by eauto]. Qed.

Lemma heap_only_trans w1 w2 w3 :
  heap_only w1 w2 → heap_only w2 w3 → heap_only w1 w3.
Proof.
  intros (H12 & L12 & I12) (H23 & L23 & I23). split_and!; [|congruence|].
  - rewrite H23. rewrite H12. done.
  - intros r e He. destruct (I12 r e He) as (e2 & He2 & Hk2 & Hi2).
    destruct (I23 r e2 He2) as (e3 & He3 & Hk3 & Hi3).
    exists e3. split_and!; congruence.
Qed.

Lemma heap_only_valid w w' r : heap_only w w' → valid w r → valid w' r.
Proof. intros (_ & Hlen & _). unfold valid. by rewrite Hlen. Qed.

Lemma set_attr_frame r name f w : heap_only w (set_attr r name f w).1.
Proof.
  unfold set_attr. destruct (heap w !! r) as [e|] eqn:He; simpl.
  - split_and!; [done | simpl; by rewrite length_insert |].
    intros r' e' He'. simpl. destruct (decide (r' = r)) as [->|Hne].
    + rewrite list_lookup_insert_eq by by eapply lookup_lt_Some.
      eexists. split; [done|]. simpl. split; congruence.
    + rewrite list_lookup_insert_ne by done. eauto.
  - apply heap_only_refl.
Qed.

Lemma set_attr_ok r name f w :
  valid w r →
  (set_attr r name f w).2 = Ok tt ∧ heap_only w (set_attr r name f w).1.
Proof.
  intros Hr. split; [|apply set_attr_frame]. unfold set_attr.
  by destruct (lookup_lt_is_Some_2 (heap w) r Hr) as [e ->].
Qed.

Lemma decode_frame self k item val w : heap_only w (decode self k item val w).1.
Proof. rewrite decode_state. apply heap_only_refl. Qed.

Lemma bind_frame {A B} (m : M A) (f : A → M B) w :
  heap_only w (m w).1 →
  (∀ a w', heap_only w' (f a w').1) →
  heap_only w (bind m f w).1.
Proof.
  intros Hm Hf. unfold bind. destruct (m w) as [w1 [a|e]]; simpl in *; [|done].
  eapply heap_only_trans; [exact Hm | apply Hf].
Qed.

Lemma ret_frame {A} (a : A) w : heap_only w (ret a w).1.
Proof. apply heap_only_refl. Qed.

Lemma raise_frame {A} e w : heap_only w (raise (A:=A) e w).1.
Proof. apply heap_only_refl. Qed.

Lemma lift_frame {A} (r : res A) w : heap_only w (lift r w).1.
Proof. apply heap_only_refl. Qed.

Lemma deref_frame r w : heap_only w (deref r w).1.
Proof. rewrite deref_spec. apply heap_only_refl. Qed.

Ltac frame :=
  repeat first
    [ apply ret_frame | apply raise_frame | apply lift_frame
    | apply deref_frame | apply set_attr_frame | apply decode_frame
    | apply bind_frame; [|intros ? ?]
    | match goal with
      | |- heap_only _ (match ?x with _ => _ end _).1 => destruct x
      end ].

Lemma set_field_frame self item val k w :
  heap_only w (set_field self item val k w).1.
Proof. unfold set_field. frame. Qed.

Lemma set_fields_frame fields self item val w :
  heap_only w (set_fields self item val fields w).1.
Proof.
  revert val w. induction fields as [|k rest IH]; intros val w; simpl.
  - apply heap_only_refl.
  - apply bind_frame; [apply set_field_frame | intros; apply IH].
Qed.

(** ** Chunking *)

Lemma add_future_ok obj added k w :
  valid w obj →
  ∃ b, (add_future obj added k w).2 = Ok b
       ∧ heap_only w (add_future obj added k w).1.
Proof.
  intros Hobj. unfold add_future, bind. rewrite deref_spec.
  destruct (lookup_lt_is_Some_2 (heap w) obj Hobj) as [e He]. rewrite He.
  destruct (attrs e !! ("_" +:+ k)).
  - exists added. split; [done | apply heap_only_refl].
  - destruct (set_attr_ok obj ("_" +:+ k) new_future w Hobj) as [Hres Hframe].
    destruct (set_attr obj ("_" +:+ k) new_future w) as [w1 [[]|e1]];
      simpl in *; [|done].
    by exists true.
Qed.

Lemma add_from_ok fields obj added w :
  valid w obj →
  ∃ b, (add_from obj added fields w).2 = Ok b
       ∧ heap_only w (add_from obj added fields w).1.
Proof.
  revert added w. induction fields as [|k rest IH]; intros added w Hobj; simpl.
  - exists added. split; [done | apply heap_only_refl].
  - unfold bind.
    destruct (add_future_ok obj added k w Hobj) as (b & Hres & Hframe).
    destruct (add_future obj added k w) as [w1 [b'|e]]; simpl in *; [|done].
    destruct (IH b' w1) as (b2 & Hres2 & Hframe2).
    { by eapply heap_only_valid. }
    exists b2. split; [done|]. by eapply heap_only_trans.
Qed.

Lemma add_futures_ok fields l w :
  Forall (valid w) l →
  ∃ l', (_add_futures l fields w).2 = Ok l'
        ∧ heap_only w (_add_futures l fields w).1
        ∧ l' `sublist_of` l.
Proof.
  unfold _add_futures. revert w.
  induction l as [|r l IH]; intros w Hall.
  - exists []. split_and!; [done | apply heap_only_refl | done].
  - apply Forall_cons in Hall as [Hr Hl].
    destruct (add_from_ok fields r false w Hr) as (b & Hres & Hframe).
    change (add_from r false fields w) with (add fields r w) in Hres, Hframe.
    destruct (add fields r w) as [w1 [b'|e]] eqn:Hadd;
      simpl in Hres, Hframe; [|done].
    destruct (IH w1) as (l' & Hres' & Hframe' & Hsub).
    { eapply Forall_impl; [exact Hl|]. intros x. by apply heap_only_valid. }
    destruct (filterM (add fields) l w1) as [w2 [kept|e]]
      eqn:Hf; simpl in Hres', Hframe'; [|done].
    injection Hres' as ->.
    assert (Heq : filterM (add fields) (r :: l) w
                  = (w2, Ok (if b' then r :: l' else l'))).
    { simpl. unfold bind. by rewrite Hadd, Hf. }
    rewrite Heq. simpl.
    exists (if b' then r :: l' else l'). split_and!; [done| |].
    + exact (heap_only_trans _ _ _ Hframe Hframe').
    + destruct b'; [by apply sublist_skip | by apply sublist_cons].
Qed.

Lemma range_from_spec fuel start stop :
  (stop - start ≤ fuel)%nat →
  range_from fuel start stop 50
  = map (λ j, start + 50 * j)%nat (seq 0 ((stop - start + 49) / 50)).
Proof.
  revert start. induction fuel as [|fuel IH]; intros start Hfuel.
  - replace ((stop - start + 49) / 50)%nat with 0%nat; [done|].
    symmetry. apply Nat.div_small. lia.
  - cbn [range_from]. destruct (start <? stop)%nat eqn:Hlt.
    + apply Nat.ltb_lt in Hlt.
      replace ((stop - start + 49) / 50)%nat
        with (S ((stop - (start + 50) + 49) / 50))%nat.
      * rewrite <- cons_seq, map_cons. f_equal; [lia|]. rewrite IH by lia.
        rewrite <- seq_shift, map_map. apply map_ext. intros j. lia.
      * destruct (Nat.le_gt_cases (start + 50) stop) as [Hge|Hsmall].
        -- replace (stop - start + 49)%nat
             with (stop - (start + 50) + 49 + 1 * 50)%nat by lia.
           rewrite Nat.div_add by lia. lia.
        -- replace (stop - (start + 50))%nat with 0%nat by lia.
           change ((0 + 49) / 50)%nat with 0%nat.
           apply Nat.div_unique with (r := (stop - start - 1)%nat); lia.
    + apply Nat.ltb_ge in Hlt.
      replace ((stop - start + 49) / 50)%nat with 0%nat; [done|].
      symmetry. apply Nat.div_small. lia.
Qed.

(** The slices the loop takes are the chunks of the specification. *)
Lemma slices_are_chunks {A} (l : list A) :
  map (λ i, slice l i (i + 50)) (range 0 (length l) 50) = chunks l.
Proof.
  unfold range, chunks. rewrite range_from_spec by lia.
  rewrite Nat.sub_0_r, map_map. apply map_ext. intros j.
  unfold slice. f_equal. lia.
Qed.





Lemma jobs_pool_run j p : jobs (pool_run j p) = jobs p ++ [j].
Proof. unfold pool_run. by destruct (threads_active p <? threads_max p). Qed.

Lemma forM_run (f : nat → job) (idx : list nat) w :
  ∃ p, forM (λ i, ThreadPool_run (f i)) idx w = (with_pool p w, Ok tt)
       ∧ jobs p = jobs (pool w) ++ map f idx.
Proof.
  revert w. induction idx as [|i idx IH]; intros w.
  - exists (pool w). split; [by destruct w | by rewrite app_nil_r].
  - destruct (IH (with_pool (pool_run (f i) (pool w)) w)) as (p & Hrun & Hjobs).
    exists p. split.
    + simpl. unfold bind, ThreadPool_run at 1. by rewrite Hrun.
    + rewrite Hjobs. simpl. by rewrite jobs_pool_run, <- app_assoc.
Qed.

Lemma submit_chunks_spec (mk : list nat → job) (l : list nat) w :
  ∃ p, submit_chunks mk l w = (with_pool p w, Ok tt)
       ∧ jobs p = jobs (pool w) ++ map mk (chunks l).
Proof.
  unfold submit_chunks.
  destruct (forM_run (λ i, mk (slice l i (i + 50))) (range 0 (length l) 50) w)
    as (p & Hrun & Hjobs).
  exists p. split; [done|].
  by rewrite Hjobs, <- slices_are_chunks, map_map.
Qed.


Lemma ids_of_ok sub w :
  Forall (valid w) sub → ∃ ids, ids_of sub w = (w, Ok ids).
Proof.
  unfold ids_of. induction sub as [|r sub IH]; intros Hall.
  - by exists [].
  - apply Forall_cons in Hall as [Hr Hsub].
    destruct (IH Hsub) as [ids Hids].
    destruct (lookup_lt_is_Some_2 (heap w) r Hr) as [e He].
    exists (id e :: ids). cbn [mapM]. unfold bind at 1. unfold bind at 1.
    rewrite deref_spec, He. unfold ret at 1. unfold bind at 1.
    by rewrite Hids.
Qed.

Lemma forM_frame {A} (f : A → M unit) l w :
  (∀ x w', heap_only w' (f x w').1) → heap_only w (forM f l w).1.
Proof.
  intros Hf. revert w. induction l as [|x l IH]; intros w; simpl.
  - apply heap_only_refl.
  - apply bind_frame; [apply Hf | intros; apply IH].
Qed.

Lemma heap_only_sent w w' : heap_only w w' → sent w' = sent w.
Proof. intros [-> _]. done. Qed.




(** ** Failure isolation *)

Lemma resolved_at_unique w r n u v :
  resolved_at w r n u → resolved_at w r n v → u = v.
Proof. intros (e & He & Hu) (e' & He' & Hv). congruence. Qed.

Lemma only_none_refl w : only_none w w.
Proof. intros r n v H. by left. Qed.

Lemma only_none_trans w1 w2 w3 :
  only_none w1 w2 → only_none w2 w3 → only_none w1 w3.
Proof.
  intros H12 H23 r n v H3.
  destruct (H23 r n v H3) as [H2 | ->]; [by apply H12 | by right].
Qed.

Lemma set_attr_only_none self name f w :
  (∀ v, _queue f = Some v → v = VNone) →
  only_none w (set_attr self name f w).1.
Proof.
  intros Hf r n v (e' & He' & Hn). unfold set_attr in He'.
  destruct (heap w !! self) as [es|] eqn:Hs; simpl in He';
    [|left; by exists e'].
  destruct (decide (r = self)) as [->|Hr].
  - rewrite list_lookup_insert_eq in He' by by eapply lookup_lt_Some.
    injection He' as <-. simpl in Hn.
    destruct (decide (n = name)) as [->|Hne].
    + rewrite lookup_insert_eq in Hn. injection Hn as Hq.
      right. apply Hf. by rewrite Hq.
    + rewrite lookup_insert_ne in Hn by done. left. by exists es.
  - rewrite list_lookup_insert_ne in He' by done. left. by exists e'.
Qed.

Lemma set_attr_resolved self name v w :
  valid w self →
  resolved_at (set_attr self name {| _queue := Some v |} w).1 self name v.
Proof.
  intros Hself. unfold set_attr.
  destruct (lookup_lt_is_Some_2 (heap w) self Hself) as [e He]. rewrite He.
  eexists. split.
  - simpl. apply list_lookup_insert_eq. by eapply lookup_lt_Some.
  - simpl. apply lookup_insert_eq.
Qed.

(** Writing from [None]: the field ends up resolved, and nothing but [None]
    is written. *)
Lemma write_none self val k f w :
  valid w self → _queue f = None →
  ∃ w1, (val' <- decode self k VNone val ;;
         match val' with
         | Some v0 =>
             f' <- lift (future_set f v0) ;;
             set_attr self ("_" +:+ k) f' ;;; ret val'
         | None => raise UnboundLocalError
         end) w = (w1, Ok (Some VNone))
        ∧ resolved_at w1 self ("_" +:+ k) VNone
        ∧ only_none w w1.
Proof.
  intros Hself Hq.
  pose proof (set_attr_ok self ("_" +:+ k) {| _queue := Some VNone |} w Hself)
    as [Hok _].
  pose proof (set_attr_resolved self ("_" +:+ k) VNone w Hself) as Hres.
  pose proof (set_attr_only_none self ("_" +:+ k) {| _queue := Some VNone |} w)
    as Hnone.
  destruct (set_attr self ("_" +:+ k) {| _queue := Some VNone |} w)
    as [w1 [[]|e]] eqn:Hset; simpl in Hok, Hres, Hnone; [|done].
  exists w1. split_and!; [|done|].
  - unfold bind, decode, lift, future_set. simpl. rewrite Hq.
    unfold ret at 1. by rewrite Hset.
  - apply Hnone. by intros v [= <-].
Qed.

Lemma set_field_none self val k w :
  valid w self →
  ∃ w1 val',
    set_field self VNone val k w = (w1, Ok val')
    ∧ (∃ v, resolved_at w1 self ("_" +:+ k) v)
    ∧ only_none w w1.
Proof.
  intros Hself. unfold set_field, bind at 1. rewrite deref_spec.
  destruct (lookup_lt_is_Some_2 (heap w) self Hself) as [es Hes]. rewrite Hes.
  destruct (attrs es !! ("_" +:+ k)) as [f|] eqn:Hattr.
  - unfold bind at 1, ret at 1.
    destruct (_queue f) as [u|] eqn:Hq.
    + exists w, val. split_and!; [done| |apply only_none_refl].
      exists u, es. split; [done|]. rewrite Hattr.
      by destruct f; simpl in *; subst.
    + destruct (write_none self val k f w Hself Hq) as (w1 & Hrun & Hres & Hn).
      exists w1, (Some VNone). split_and!; [done | by eexists | done].
  - unfold bind at 1. unfold bind at 1.
    pose proof (set_attr_ok self ("_" +:+ k) new_future w Hself) as [Hok Hframe].
    pose proof (set_attr_only_none self ("_" +:+ k) new_future w) as Hnone.
    destruct (set_attr self ("_" +:+ k) new_future w) as [w0 [[]|e]];
      simpl in Hok, Hframe, Hnone; [|done].
    unfold ret at 1. change (_queue new_future) with (@None value).
    destruct (write_none self val k new_future w0) as (w1 & Hrun & Hres & Hn);
      [by eapply heap_only_valid | done |].
    exists w1, (Some VNone). split_and!; [done | by eexists |].
    eapply only_none_trans; [|exact Hn]. apply Hnone. by intros v [=].
Qed.

Lemma set_fields_none fields self val w :
  valid w self →
  ∃ w1,
    set_fields self VNone val fields w = (w1, Ok tt)
    ∧ (∀ k, k ∈ fields → ∃ v, resolved_at w1 self ("_" +:+ k) v)
    ∧ only_none w w1
    ∧ heap_only w w1.
Proof.
  revert val w. induction fields as [|k rest IH]; intros val w Hself.
  - exists w. split_and!;
      [done | by intros k ?%elem_of_nil | apply only_none_refl
      | apply heap_only_refl].
  - destruct (set_field_none self val k w Hself)
      as (w1 & val' & Hrun & [v Hres] & Hnone).
    pose proof (set_field_frame self VNone val k w) as Hframe.
    rewrite Hrun in Hframe. simpl in Hframe.
    destruct (IH val' w1) as (w2 & Hrun2 & Hres2 & Hnone2 & Hframe2).
    { by eapply heap_only_valid. }
    exists w2. split_and!.
    + simpl. unfold bind. by rewrite Hrun, Hrun2.
    + intros k' [->|Hk']%elem_of_cons; [|by apply Hres2].
      exists v. pose proof (set_fields_keeps rest w1 self VNone val' self
                              ("_" +:+ k) v Hres) as Hkeep.
      by rewrite Hrun2 in Hkeep.
    + by eapply only_none_trans.
    + by eapply heap_only_trans.
Qed.

(** The second loop of a job whose dict is empty. *)
Lemma fill_none fields (sublist : list nat) w :
  Forall (valid w) sublist → hashable_ids w sublist →
  ∃ w1,
    forM (λ x, e <- deref x ;;
               if hashable (id e)
               then _set_api_data x fields (pydict_get (id e) [])
               else raise TypeError) sublist w = (w1, Ok tt)
    ∧ (∀ x k, x ∈ sublist → k ∈ fields →
         ∃ v, resolved_at w1 x ("_" +:+ k) v)
    ∧ only_none w w1
    ∧ heap_only w w1.
Proof.
  revert w. induction sublist as [|x rest IH]; intros w Hvalid Hids.
  - exists w. split_and!;
      [done | by intros x k ?%elem_of_nil | apply only_none_refl
      | apply heap_only_refl].
  - apply Forall_cons in Hvalid as [Hx Hrest].
    destruct (Hids x) as (e & He & Hhash); [by left|].
    destruct (set_fields_none fields x None w Hx)
      as (w1 & Hrun & Hres & Hnone & Hframe).
    destruct (IH w1) as (w2 & Hrun2 & Hres2 & Hnone2 & Hframe2).
    { eapply Forall_impl; [exact Hrest|]. intros r. by apply heap_only_valid. }
    { intros r Hr. destruct (Hids r) as (er & Her & Hhr); [by right|].
      destruct Hframe as (_ & _ & Hsame).
      destruct (Hsame r er Her) as (er' & Her' & _ & Hid).
      exists er'. split; [done | congruence]. }
    exists w2. split_and!.
    + cbn [forM]. unfold bind at 1. unfold bind at 1.
      rewrite deref_spec, He, Hhash. cbn [pydict_get].
      unfold _set_api_data. by rewrite Hrun.
    + intros y k [->|Hy]%elem_of_cons Hk; [|by apply Hres2].
      destruct (Hres k Hk) as [v Hv]. exists v.
      clear -Hv Hrun2. revert w1 w2 Hv Hrun2.
      induction rest as [|z rest IHr]; intros w1 w2 Hv Hrun2.
      * by injection Hrun2 as <-.
      * cbn [forM] in Hrun2. unfold bind at 1 in Hrun2.
        unfold bind at 1 in Hrun2. rewrite deref_spec in Hrun2.
        destruct (heap w1 !! z) as [ez|]; [|done].
        destruct (hashable (id ez)); [|done].
        pose proof (set_fields_keeps fields w1 z (pydict_get (id ez) []) None
                      x ("_" +:+ k) v Hv) as Hkeep.
        unfold _set_api_data in Hrun2.
        destruct (set_fields z (pydict_get (id ez) []) None fields w1)
          as [w1' [[]|err]]; [|done].
        by apply (IHr w1' w2).
    + by eapply only_none_trans.
    + by eapply heap_only_trans.
Qed.

Lemma failed_try_block call (sublist : list nat) ids w :
  ids_of sublist w = (w, Ok ids) →
  chunk_call_fails w (call ids) →
  try_except
    (ids <- ids_of sublist ;;
     data <- API (call ids) ;;
     lift (index_items data))
    (λ _, ret []) w
  = (with_sent (sent w ++ [call ids]) w, Ok []).
Proof.
  intros Hids Hfail. unfold try_except, bind at 1. rewrite Hids.
  unfold bind, API, lift. unfold chunk_call_fails in Hfail.
  destruct (service w (sent w) (call ids)) as [data|e]; [|done].
  destruct Hfail as [e He]. by rewrite He.
Qed.

Lemma forM_keeps fields (l : list nat) w r n v :
  resolved_at w r n v →
  resolved_at
    (forM (λ x, e <- deref x ;;
                if hashable (id e)
                then _set_api_data x fields (pydict_get (id e) [])
                else raise TypeError) l w).1 r n v.
Proof.
  revert w. induction l as [|x l IH]; intros w Hres; [done|].
  cbn [forM]. unfold bind at 1. unfold bind at 1. rewrite deref_spec.
  destruct (heap w !! x) as [e|]; [|done].
  destruct (hashable (id e)); [|done].
  pose proof (set_fields_keeps fields w x (pydict_get (id e) []) None r n v Hres)
    as Hkeep.
  unfold _set_api_data.
  destruct (set_fields x (pydict_get (id e) []) None fields w) as [w1 [[]|err]];
    [|done].
  by apply IH.
Qed.

Lemma failed_job call fields (sublist : list nat) ids w :
  Forall (valid w) sublist → hashable_ids w sublist →
  ids_of sublist w = (w, Ok ids) →
  chunk_call_fails w (call ids) →
  settles_pending_to_none w (load_info_job call fields sublist w) sublist fields.
Proof.
  intros Hvalid Hhash Hids Hfail.
  destruct (fill_none fields sublist (with_sent (sent w ++ [call ids]) w))
    as (w1 & Hrun & Hres & Hnone & _); [done|done|].
  assert (Hjob : load_info_job call fields sublist w = (w1, Ok tt)).
  { unfold load_info_job. unfold bind at 1.
    by rewrite (failed_try_block call sublist ids w Hids Hfail). }
  unfold settles_pending_to_none. rewrite Hjob. split; [done|].
  intros x k Hx Hk. destruct (Hres x k Hx Hk) as [v Hv].
  exists v. split_and!; [done| |].
  - intros u Hu.
    pose proof (forM_keeps fields sublist (with_sent (sent w ++ [call ids]) w)
                  x ("_" +:+ k) u Hu) as Hkeep.
    rewrite Hrun in Hkeep. by apply (resolved_at_unique w1 x ("_" +:+ k)).
  - intros Hnot. destruct (Hnone x ("_" +:+ k) v Hv) as [Hold|]; [|done].
    by destruct (Hnot v).
Qed.

(** C3 (as stated, refuted): a video whose title was seeded from a search
    or playlist page keeps that title when the request of its chunk fails;
    only [length] and [channel] become [None]. *)
Lemma seeded_title_survives_failed_chunk :
  let w' := (Video_load_info_job [0%nat] seeded_loading).1 in
  jobs (pool seeded_loading) = [Video_info [0%nat]]
  ∧ chunk_call_fails seeded_loading (API_list_videos [VStr "7uj0hOIm2kY"])
  ∧ resolved_at w' 0 "_title" (VStr "t")
  ∧ ¬ resolved_at w' 0 "_title" VNone
  ∧ resolved_at w' 0 "_length" VNone
  ∧ resolved_at w' 0 "_channel" VNone.
Proof.
  assert (Ht : resolved_at (Video_load_info_job [0%nat] seeded_loading).1
                 0 "_title" (VStr "t")).
  { eexists. split; [reflexivity|]. vm_compute. reflexivity. }
  split_and!.
  - vm_compute. reflexivity.
  - exact I.
  - exact Ht.
  - intros Hnone. by pose proof (resolved_at_unique _ _ _ _ _ Ht Hnone).
  - eexists. split; [reflexivity|]. vm_compute. reflexivity.
  - eexists. split; [reflexivity|]. vm_compute. reflexivity.
Qed.

(** C3 (amended): when the request of a chunk fails, the job raises
    nothing and leaves every targeted field of every entity of the chunk
    resolved: to [None] if the field was not resolved before, to the value
    it already had otherwise. No reader of these fields blocks or sees an
    exception. *)
Theorem failed_chunk_resolves_pending_fields_to_none (w : World)
    (sublist : list nat) (ids : list value) :
  Forall (valid w) sublist → hashable_ids w sublist →
  ids_of sublist w = (w, Ok ids) →
  (chunk_call_fails w (API_list_videos ids) →
   settles_pending_to_none w (Video_load_info_job sublist w)
     sublist Video_fields)
  ∧ (chunk_call_fails w (API_list_playlists ids) →
     settles_pending_to_none w (Playlist_load_info_job sublist w)
       sublist Playlist_fields).
Proof.
  intros Hvalid Hhash Hids. split; intros Hfail; by eapply failed_job.
Qed.

Lemma failed_chunk_resolves_pending_fields_to_none_witness :
  settles_pending_to_none seeded_loading
    (Video_load_info_job [0%nat] seeded_loading) [0%nat] Video_fields.
Proof.
  refine (proj1 (failed_chunk_resolves_pending_fields_to_none seeded_loading
                   [0%nat] [VStr "7uj0hOIm2kY"] _ _ _) _).
  - apply Forall_singleton. unfold valid. vm_compute. lia.
  - intros r ->%list_elem_of_singleton. eexists. split; reflexivity.
  - reflexivity.
  - exact I.
Defined.

(** ** The audio url *)

(** When [pafy.new] raises, the field is resolved to [None] and the error is
    logged. *)
Lemma audio_url_deleted_resolves_to_none self e w :
  heap w !! self = Some e →
  attrs e !! "_audio_url" = Some new_future →
  (∃ err, pafy_new w (id e) = Raise err) →
  ∃ w', Video_audio_url_job self w = (w', Ok tt)
        ∧ resolved_at w' self "_audio_url" VNone
        ∧ logged w' = logged w ++ [error_deleted_restricted (id e)].
Proof.
  intros He Hattr [err Hnew]. unfold Video_audio_url_job.
  unfold bind at 1. rewrite deref_spec, He. unfold ret at 1. rewrite Hnew.
  unfold bind, logger_error, resolve, get_attr, bind.
  rewrite !deref_spec. simpl. rewrite He, Hattr.
  unfold lift, future_set. simpl. unfold set_attr. simpl. rewrite He.
  eexists. split; [reflexivity|]. split; [|done].
  eexists. split.
  - simpl. apply list_lookup_insert_eq. by eapply lookup_lt_Some.
  - simpl. apply lookup_insert_eq.
Qed.

(** C6 (the code at the failing input): for a video that [pafy.new] accepts
    but that has no [m4a] stream, the job dies on [uri.url] with an
    [AttributeError]; the worker logs it, and the future of [audio_url] is
    never set, so a reader waits forever instead of getting [None]. *)
Lemma audio_url_without_stream_stays_pending :
  let w := audio_requested pafy_no_m4a in
  jobs (pool w) = [Audio_url 0]
  ∧ (Video_audio_url_job 0 w).2 = Raise AttributeError
  ∧ ∃ w', worker_apply 0 (Audio_url 0) w = Some (w', Ok tt)
          ∧ logged w' = [error_thread AttributeError]
          ∧ pending_at w' 0 "_audio_url"
          ∧ ¬ resolved_at w' 0 "_audio_url" VNone.
Proof.
  split_and!; [by vm_compute | by vm_compute|].
  eexists. split_and!.
  - vm_compute. reflexivity.
  - reflexivity.
  - eexists. split; [reflexivity|]. vm_compute. reflexivity.
  - intros (e & He & Hattr). vm_compute in He. injection He as <-.
    vm_compute in Hattr. discriminate.
Qed.

(** ** Search *)





Lemma async_property_present name func self e f w :
  heap w !! self = Some e →
  attrs e !! ("_" +:+ name) = Some f →
  async_property name func self w = (w, Ok f).
Proof.
  intros He Hattr. unfold async_property, bind.
  rewrite deref_spec, He, Hattr. unfold ret at 1.
  by rewrite deref_spec, He, Hattr.
Qed.


Lemma extends_refl w : extends w w.
Proof. split; eauto. Qed.


Lemma heap_only_cache_refs w w' :
  heap_only w w' → cache_refs_ok w → cache_refs_ok w'.
Proof.
  intros (Hw & _ & Hsame) Hok x Hx. rewrite Hw in Hx. simpl in Hx.
  destruct (Hok x Hx) as (e & He & Hk).
  destruct (Hsame x.2 e He) as (e' & He' & Hk' & _).
  exists e'. split; congruence.
Qed.


(** [get] hands out an instance of the class asked for and forgets
    nothing that is resolved. *)
Lemma Entry_get_obj c i w w1 obj :
  cache_refs_ok w →
  Entry_get c i w = (w1, Ok obj) →
  (∃ e, heap w1 !! obj = Some e ∧ klass e = c)
  ∧ cache_refs_ok w1
  ∧ extends w w1.
Proof.
  intros Hok. unfold Entry_get. destruct (hashable i); [|done].
  destruct (find (same_key c i) (cache w)) as [hit|] eqn:Hfind.
  - intros [= <- <-].
    destruct (find_split _ _ _ Hfind) as (pre & post & Heq & Hhit & _).
    assert (Hin : hit ∈ cache w) by (rewrite Heq; apply elem_of_middle).
    unfold same_key in Hhit. apply andb_true_iff in Hhit as [Hc _].
    apply bool_decide_eq_true in Hc.
    split_and!.
    + destruct (Hok hit Hin) as (e & He & Hk). exists e.
      split; [done | congruence].
    + intros x [->|Hx]%elem_of_cons; simpl; [by apply Hok|].
      apply list_elem_of_filter in Hx as [_ Hx]. by apply Hok.
    + exact (extends_refl w).
  - intros [= <- <-]. split_and!.
    + eexists. split; [apply list_lookup_middle; done | done].
    + intros x Hx. simpl in Hx |- *.
      apply elem_of_cons in Hx as [->|Hx].
      * eexists. split; [apply list_lookup_middle; done | done].
      * apply subseteq_take in Hx.
        destruct (Hok x Hx) as (e & He & Hk). exists e.
        split; [by apply lookup_app_l_Some | done].
    + split.
      * intros r n v (e & He & Hn). exists e.
        split; [by apply lookup_app_l_Some | done].
      * intros r e He. exists e. split; [by apply lookup_app_l_Some | done].
Qed.







(** ** Pagination: what a round leaves alone *)

Lemma quiet_refl names w : quiet names w w.
Proof. split_and!; [done|done|done|]. intros r e He. exists e. eauto. Qed.

Lemma quiet_trans names w1 w2 w3 :
  quiet names w1 w2 → quiet names w2 w3 → quiet names w1 w3.
Proof.
  intros (T12 & S12 & M12 & H12) (T23 & S23 & M23 & H23).
  split_and!; [congruence..|].
  intros r e He.
  destruct (H12 r e He) as (e2 & He2 & Hk2 & Hi2 & Ha2).
  destruct (H23 r e2 He2) as (e3 & He3 & Hk3 & Hi3 & Ha3).
  exists e3. split_and!; [done | congruence | congruence |].
  intros n Hn. rewrite Ha3, Ha2; done.
Qed.

Lemma quiet_valid names w w' r : quiet names w w' → valid w r → valid w' r.
Proof.
  intros (_ & _ & _ & Hh) Hr. unfold valid in *.
  destruct (lookup_lt_is_Some_2 (heap w) r Hr) as [e He].
  destruct (Hh r e He) as (e' & He' & _). by eapply lookup_lt_Some.
Qed.

Lemma set_attr_quiet names r name f w :
  name ∈ names → quiet names w (set_attr r name f w).1.
Proof.
  intros Hname. unfold set_attr.
  destruct (heap w !! r) as [e|] eqn:He; simpl; [|apply quiet_refl].
  split_and!; [done|done|done|]. intros r' e' He'. simpl.
  destruct (decide (r' = r)) as [->|Hne].
  - rewrite list_lookup_insert_eq by by eapply lookup_lt_Some.
    rewrite He in He'. injection He' as <-.
    eexists. split_and!; [done|done|done|]. simpl.
    intros n Hn. apply lookup_insert_ne. by intros ->.
  - rewrite list_lookup_insert_ne by done. exists e'. eauto.
Qed.

Lemma bind_quiet {A B} names (m : M A) (f : A → M B) w :
  quiet names w (m w).1 →
  (∀ a w', quiet names w' (f a w').1) →
  quiet names w (bind m f w).1.
Proof.
  intros Hm Hf. unfold bind. destruct (m w) as [w1 [a|e]]; simpl in *; [|done].
  eapply quiet_trans; [exact Hm | apply Hf].
Qed.

Lemma same_state_quiet {A} names (m : M A) w : (m w).1 = w → quiet names w (m w).1.
Proof. intros ->. apply quiet_refl. Qed.

Lemma deref_state r w : (deref r w).1 = w.
Proof. by rewrite deref_spec. Qed.

Lemma set_field_quiet names self item val k w :
  "_" +:+ k ∈ names → quiet names w (set_field self item val k w).1.
Proof.
  intros Hk. unfold set_field.
  apply bind_quiet; [apply same_state_quiet, deref_state|]. intros e w1.
  apply bind_quiet.
  - destruct (attrs e !! ("_" +:+ k)); [apply quiet_refl|].
    apply bind_quiet; [by apply set_attr_quiet | intros; apply quiet_refl].
  - intros f w2. destruct (_queue f); [apply quiet_refl|].
    apply bind_quiet; [apply same_state_quiet, decode_state|].
    intros [v|] w3; [|apply quiet_refl].
    apply bind_quiet; [apply quiet_refl|]. intros f' w4.
    apply bind_quiet; [by apply set_attr_quiet | intros; apply quiet_refl].
Qed.

Lemma set_fields_quiet names fields self item val w :
  (∀ k, k ∈ fields → "_" +:+ k ∈ names) →
  quiet names w (set_fields self item val fields w).1.
Proof.
  revert val w. induction fields as [|k rest IH]; intros val w Hnames.
  - apply quiet_refl.
  - cbn [set_fields]. apply bind_quiet.
    + apply set_field_quiet, Hnames. by left.
    + intros val' w'. apply IH. intros k' Hk'. apply Hnames. by right.
Qed.

Lemma add_from_quiet names fields obj added w :
  (∀ k, k ∈ fields → "_" +:+ k ∈ names) →
  quiet names w (add_from obj added fields w).1.
Proof.
  revert added w. induction fields as [|k rest IH]; intros added w Hnames.
  - apply quiet_refl.
  - cbn [add_from]. apply bind_quiet.
    + unfold add_future.
      apply bind_quiet; [apply same_state_quiet, deref_state|]. intros e w1.
      destruct (attrs e !! ("_" +:+ k)); [apply quiet_refl|].
      apply bind_quiet; [|intros; apply quiet_refl].
      apply set_attr_quiet, Hnames. by left.
    + intros b w'. apply IH. intros k' Hk'. apply Hnames. by right.
Qed.

Lemma add_futures_quiet names fields l w :
  (∀ k, k ∈ fields → "_" +:+ k ∈ names) →
  quiet names w (_add_futures l fields w).1.
Proof.
  intros Hnames. unfold _add_futures. revert w.
  induction l as [|r l IH]; intros w; [apply quiet_refl|].
  cbn [filterM]. apply bind_quiet; [by apply add_from_quiet|]. intros b w1.
  apply bind_quiet; [apply IH | intros; apply quiet_refl].
Qed.

Lemma with_pool_quiet names p w : quiet names w (with_pool p w).
Proof. exact (quiet_refl names w). Qed.

Lemma submit_chunks_quiet names mk l w :
  quiet names w (submit_chunks mk l w).1.
Proof.
  destruct (submit_chunks_spec mk l w) as (p & -> & _). apply with_pool_quiet.
Qed.

Lemma Video_load_info_quiet l w :
  quiet video_futures w (Video_load_info l w).1.
Proof.
  unfold Video_load_info. apply bind_quiet.
  - apply add_futures_quiet. unfold Video_fields, video_futures.
    intros k Hk. rewrite !elem_of_cons in Hk.
    destruct Hk as [->|[->|[->|Hk]]]; [| | |by apply elem_of_nil in Hk];
      rewrite !elem_of_cons; auto.
  - intros l' w'. apply submit_chunks_quiet.
Qed.

Lemma Entry_get_quiet names c i w : quiet names w (Entry_get c i w).1.
Proof.
  unfold Entry_get. destruct (hashable i); [|apply quiet_refl].
  destruct (find (same_key c i) (cache w)); [exact (quiet_refl names w)|].
  split_and!; [done|done|done|]. intros r e He. exists e. simpl.
  split_and!; [by apply lookup_app_l_Some | done..].
Qed.

Lemma create_member_quiet item w :
  quiet video_futures w (create_member item w).1.
Proof.
  unfold create_member.
  apply bind_quiet; [apply quiet_refl|]. intros vid w1.
  apply bind_quiet; [apply Entry_get_quiet|]. intros video w2.
  apply bind_quiet; [|intros; apply quiet_refl].
  apply set_fields_quiet. intros k ->%list_elem_of_singleton.
  unfold video_futures. by left.
Qed.

Lemma mapM_create_member_quiet items w :
  quiet video_futures w (mapM create_member items w).1.
Proof.
  revert w. induction items as [|item items IH]; intros w; [apply quiet_refl|].
  cbn [mapM]. apply bind_quiet; [apply create_member_quiet|]. intros obj w1.
  apply bind_quiet; [apply IH | intros; apply quiet_refl].
Qed.

Lemma take_page_quiet all_videos data w :
  quiet video_futures w (take_page all_videos data w).1.
Proof.
  unfold take_page.
  apply bind_quiet; [apply quiet_refl|]. intros token w1.
  apply bind_quiet; [apply quiet_refl|]. intros items w2.
  apply bind_quiet; [apply mapM_create_member_quiet|]. intros my w3.
  apply bind_quiet; [apply Video_load_info_quiet | intros; apply quiet_refl].
Qed.

(** ** Pagination: a well-formed page is taken in *)

Lemma subscript_truthy item k v : subscript item k = Ok v → truthy item = true.
Proof.
  destruct item as [| | | | |kvs|]; try done. by destruct kvs.
Qed.

Lemma set_title_ok obj item snippet title w :
  valid w obj →
  subscript item "snippet" = Ok snippet →
  subscript snippet "title" = Ok title →
  ∃ w1, _set_api_data obj ["title"] item w = (w1, Ok tt) ∧ heap_only w w1.
Proof.
  intros Hobj Hsn Ht.
  assert (Hdecode : ∀ val w', decode obj "title" item val w' = (w', Ok (Some title))).
  { intros val w'. unfold decode.
    rewrite (subscript_truthy _ _ _ Hsn). simpl.
    unfold bind, lift. rewrite Hsn. simpl. by rewrite Ht. }
  pose proof (set_fields_frame ["title"] obj item None w) as Hframe.
  unfold _set_api_data. cbn [set_fields] in *.
  unfold bind at 1 in Hframe. unfold bind at 1.
  assert (Hfield : ∃ w1 val', set_field obj item None "title" w = (w1, Ok val')).
  { unfold set_field, bind at 1. rewrite deref_spec.
    destruct (lookup_lt_is_Some_2 (heap w) obj Hobj) as [e He]. rewrite He.
    assert (Hwrite : ∀ f w', valid w' obj → _queue f = None →
              ∃ w1 val',
                (val' <- decode obj "title" item None ;;
                 match val' with
                 | Some v0 =>
                     f' <- lift (future_set f v0) ;;
                     set_attr obj ("_" +:+ "title") f' ;;; ret val'
                 | None => raise UnboundLocalError
                 end) w' = (w1, Ok val')).
    { intros f w' Hv Hq. unfold bind at 1. rewrite Hdecode.
      unfold bind, lift, future_set. rewrite Hq.
      destruct (set_attr_ok obj ("_" +:+ "title") {| _queue := Some title |} w' Hv)
        as [Hok _].
      destruct (set_attr obj ("_" +:+ "title") {| _queue := Some title |} w')
        as [w1 [[]|err]]; [|done].
      by eexists _, _. }
    destruct (attrs e !! ("_" +:+ "title")) as [f|].
    - unfold bind at 1, ret at 1. destruct (_queue f) eqn:Hq.
      + by eexists _, _.
      + by apply Hwrite.
    - unfold bind at 1. unfold bind at 1.
      destruct (set_attr_ok obj ("_" +:+ "title") new_future w Hobj)
        as [Hok Hfr].
      destruct (set_attr obj ("_" +:+ "title") new_future w)
        as [w0 [[]|err]]; [|done].
      unfold ret at 1. change (_queue new_future) with (@None value).
      apply Hwrite; [|done]. by eapply heap_only_valid. }
  destruct Hfield as (w1 & val' & Hfield). rewrite Hfield in Hframe |- *.
  exists w1. split; [done|]. exact Hframe.
Qed.

Lemma create_member_ok item w :
  cache_refs_ok w → member_ok item →
  ∃ w1 obj, create_member item w = (w1, Ok obj)
            ∧ valid w1 obj ∧ cache_refs_ok w1.
Proof.
  intros Hok (snippet & rid & vid & title & Hsn & Hrid & Hvid & Hhash & Ht).
  unfold create_member, bind at 1, lift at 1.
  rewrite Hsn. cbn [res_bind]. rewrite Hrid. cbn [res_bind]. rewrite Hvid.
  unfold bind at 1.
  destruct (Entry_get Video vid w) as [wa [obj|e]] eqn:Hget.
  - destruct (Entry_get_obj Video vid w wa obj Hok Hget)
      as ((e & He & _) & Hoka & _).
    assert (Hobj : valid wa obj) by by eapply lookup_lt_Some.
    destruct (set_title_ok obj item snippet title wa Hobj Hsn Ht)
      as (wb & Hset & Hframe).
    unfold bind. rewrite Hset. exists wb, obj. split_and!; [done| |].
    + by eapply heap_only_valid.
    + by eapply heap_only_cache_refs.
  - exfalso. unfold Entry_get in Hget. rewrite Hhash in Hget.
    by destruct (find (same_key Video vid) (cache w)).
Qed.

Lemma mapM_create_member_ok items w :
  cache_refs_ok w → Forall member_ok items →
  ∃ w1 my, mapM create_member items w = (w1, Ok my)
           ∧ length my = length items
           ∧ Forall (valid w1) my
           ∧ cache_refs_ok w1.
Proof.
  revert w. induction items as [|item items IH]; intros w Hok Hitems.
  - exists w, []. by split_and!.
  - apply Forall_cons in Hitems as [Hitem Hitems].
    destruct (create_member_ok item w Hok Hitem) as (wa & obj & Hrun & Hobj & Hoka).
    destruct (IH wa Hoka Hitems) as (wb & my & Hrun' & Hlen & Hvalid & Hokb).
    exists wb, (obj :: my). split_and!; [| |  |done].
    + cbn [mapM]. unfold bind. by rewrite Hrun, Hrun'.
    + simpl. by rewrite Hlen.
    + apply Forall_cons. split; [|done].
      pose proof (mapM_create_member_quiet items wa) as Hq.
      rewrite Hrun' in Hq. by eapply quiet_valid.
Qed.

Lemma Video_load_info_ok l w :
  Forall (valid w) l →
  ∃ w1, Video_load_info l w = (w1, Ok tt)
        ∧ (cache_refs_ok w → cache_refs_ok w1).
Proof.
  intros Hl. unfold Video_load_info, bind.
  destruct (add_futures_ok Video_fields l w Hl) as (l' & Hres & Hframe & _).
  destruct (_add_futures l Video_fields w) as [w1 [kept|e]];
    simpl in Hres, Hframe; [|done].
  destruct (submit_chunks_spec Video_info kept w1) as (p & Hrun & _).
  rewrite Hrun. eexists. split; [done|].
  intros Hok. by apply (heap_only_cache_refs w w1).
Qed.

Lemma take_page_ok all_videos kvs items w :
  cache_refs_ok w →
  assoc "items" kvs = Some (VList items) →
  Forall member_ok items →
  ∃ w1 my,
    take_page all_videos (VDict kvs) w
    = (w1, Ok (or_None (default VNone (assoc "nextPageToken" kvs)),
               all_videos ++ my))
    ∧ length my = length items
    ∧ cache_refs_ok w1.
Proof.
  intros Hok Hitems Hall. unfold take_page, bind at 1, lift at 1.
  assert (Htoken : dict_get (VDict kvs) "nextPageToken"
                   = Ok (default VNone (assoc "nextPageToken" kvs))).
  { simpl. by destruct (assoc "nextPageToken" kvs). }
  rewrite Htoken. unfold bind at 1, lift at 1. simpl subscript.
  rewrite Hitems. cbn [res_bind py_iter].
  destruct (mapM_create_member_ok items w Hok Hall)
    as (w1 & my & Hrun & Hlen & Hvalid & Hok1).
  unfold bind at 1. rewrite Hrun.
  destruct (Video_load_info_ok my w1 Hvalid) as (w2 & Hload & Hok2).
  unfold bind. rewrite Hload.
  exists w2, my. split_and!; [done|done|by apply Hok2].
Qed.

(** ** Pagination: the loop *)

Lemma videos_cond_spec self e all_videos page w :
  heap w !! self = Some e → klass e = Playlist →
  videos_cond self all_videos page w
  = (w, Ok (is_not_None page && (Z.of_nat (length all_videos) <? max_videos w))).
Proof.
  intros He Hk. unfold videos_cond.
  destruct (is_not_None page); [|done].
  unfold bind, self_max_videos, bind. by rewrite deref_spec, He, Hk.
Qed.

Lemma fetch_page_spec self e all_videos page w :
  heap w !! self = Some e → klass e = Playlist →
  let c := API_list_playlistitems (id e) page
             (Z.min (max_videos w - Z.of_nat (length all_videos)) 50) in
  fetch_page self all_videos page w
  = (with_sent (sent w ++ [c]) w,
     match service w (sent w) c with
     | Ok data => Ok (Some data)
     | Raise _ => Ok None
     end).
Proof.
  intros He Hk c. unfold fetch_page, try_except, bind at 1.
  unfold self_max_videos, bind at 1. rewrite deref_spec, He, Hk.
  unfold get_max_videos, bind at 1. rewrite deref_spec, He.
  unfold bind, API. fold c. by destruct (service w (sent w) c).
Qed.

Lemma loop_inv_round self s w w' :
  loop_inv self w → quiet video_futures (with_sent s w) w' →
  cache_refs_ok w' → loop_inv self w'.
Proof.
  intros (_ & Hpages & (e & He & Hk) & (e0 & He0 & Hpend))
    (_ & Hs & Hm & Hh) Hok. simpl in Hs, Hm, Hh.
  rewrite He in He0. injection He0 as <-.
  destruct (Hh self e He) as (e' & He' & Hk' & _ & Hattrs).
  split_and!; [done| | |].
  - unfold pages_ok. rewrite Hs. exact Hpages.
  - exists e'. split; congruence.
  - exists e'. split; [done|]. rewrite Hattrs; [done|].
    unfold video_futures. rewrite !elem_of_cons, elem_of_nil.
    intros [?|[?|[?|[]]]]; discriminate.
Qed.

Lemma loop_stops_at_false_cond fuel self e all_videos page w :
  heap w !! self = Some e → klass e = Playlist →
  page = VNone ∨ max_videos w ≤ Z.of_nat (length all_videos) →
  videos_loop (S fuel) self all_videos page w
  = Some (w, Ok (cond_false, page, all_videos)).
Proof.
  intros He Hk Hstop. cbn [videos_loop].
  rewrite (videos_cond_spec self e all_videos page w He Hk).
  destruct Hstop as [->|Hmax]; [done|].
  apply Z.ltb_ge in Hmax. rewrite Hmax. by rewrite andb_false_r.
Qed.

(** One round on a well-formed page: exactly one request is sent, the
    members of the page are appended in order, and the loop goes on with
    the token of the page, or [None] when the token is falsy or missing. *)
Lemma loop_round self e all_videos page kvs items w :
  cache_refs_ok w → heap w !! self = Some e → klass e = Playlist →
  is_not_None page = true →
  Z.of_nat (length all_videos) < max_videos w →
  ∀ c, c = API_list_playlistitems (id e) page
             (Z.min (max_videos w - Z.of_nat (length all_videos)) 50) →
  service w (sent w) c = Ok (VDict kvs) →
  assoc "items" kvs = Some (VList items) →
  Forall member_ok items →
  ∃ w3 my,
    length my = length items
    ∧ cache_refs_ok w3
    ∧ sent w3 = sent w ++ [c]
    ∧ quiet video_futures (with_sent (sent w ++ [c]) w) w3
    ∧ ∀ fuel,
        videos_loop (S fuel) self all_videos page w
        = videos_loop fuel self (all_videos ++ my)
            (or_None (default VNone (assoc "nextPageToken" kvs))) w3.
Proof.
  intros Hok He Hk Hpage Hlt c Hc Hsrv Hitems Hall.
  destruct (take_page_ok all_videos kvs items
              (with_sent (sent w ++ [c]) w) Hok Hitems Hall)
    as (w3 & my & Hrun & Hlen & Hok3).
  pose proof (take_page_quiet all_videos (VDict kvs)
                (with_sent (sent w ++ [c]) w)) as Hquiet.
  rewrite Hrun in Hquiet. simpl in Hquiet.
  exists w3, my. split_and!; [done | done | apply Hquiet | done |].
  intros fuel. cbn [videos_loop].
  rewrite (videos_cond_spec self e all_videos page w He Hk), Hpage.
  rewrite (proj2 (Z.ltb_lt _ _) Hlt). cbn [andb].
  rewrite (fetch_page_spec self e all_videos page w He Hk).
  cbv zeta. rewrite <- Hc, Hsrv, Hrun. done.
Qed.

(** With well-formed pages the loop comes to its end within
    [max_videos - len(all_videos) + 2] tests of its condition. *)
Lemma loop_terminates self n : ∀ all_videos page w,
  loop_inv self w →
  (Z.to_nat (max_videos w - Z.of_nat (length all_videos)) ≤ n)%nat →
  ∃ w' why page' all',
    videos_loop (S (S n)) self all_videos page w
    = Some (w', Ok (why, page', all'))
    ∧ exit_reason w w' why page' all'
    ∧ pending_at w' self "_videos".
Proof.
  induction n as [n IH] using lt_wf_ind. intros all_videos page w Hinv Hn.
  pose proof Hinv as (Hok & Hpages & (e & He & Hk) & Hpend).
  destruct (is_not_None page && (Z.of_nat (length all_videos) <? max_videos w))
    eqn:Hcond.
  - apply andb_true_iff in Hcond as [Hpage Hlt]. apply Z.ltb_lt in Hlt.
    set (c := API_list_playlistitems (id e) page
                (Z.min (max_videos w - Z.of_nat (length all_videos)) 50)).
    destruct (service w (sent w) c) as [data|err] eqn:Hsrv.
    + destruct (Hpages _ _ _ _ _ Hsrv)
        as (kvs & items & -> & Hitems & Hall & Hprog).
      destruct (loop_round self e all_videos page kvs items w
                  Hok He Hk Hpage Hlt c eq_refl Hsrv Hitems Hall)
        as (w3 & my & Hlen & Hok3 & Hsent & Hquiet & Hstep).
      assert (Hinv3 : loop_inv self w3).
      { exact (loop_inv_round self (sent w ++ [c]) w w3 Hinv Hquiet Hok3). }
      destruct Hquiet as (_ & Hsrv3 & Hmax3 & _). simpl in Hsrv3, Hmax3.
      rewrite Hstep.
      destruct items as [|item items].
      * destruct Hprog as [?|Hnone]; [done|].
        destruct my; [|done]. rewrite Hnone, app_nil_r.
        destruct Hinv3 as (_ & _ & (e3 & He3 & Hk3) & Hpend3).
        rewrite (loop_stops_at_false_cond n self e3 all_videos VNone w3 He3 Hk3)
          by by left.
        exists w3, cond_false, VNone, all_videos.
        split_and!; [done | by left | done].
      * destruct n as [|n]; [lia|].
        destruct (IH n (Nat.lt_succ_diag_r n) (all_videos ++ my)
                    (or_None (default VNone (assoc "nextPageToken" kvs))) w3
                    Hinv3)
          as (w' & why & page' & all' & Hloop & Hexit & Hpend').
        { rewrite Hmax3, length_app, Hlen. simpl. lia. }
        exists w', why, page', all'. split_and!; [done| |done].
        unfold exit_reason in *. rewrite Hmax3, Hsrv3 in Hexit. exact Hexit.
    + exists (with_sent (sent w ++ [c]) w), handler_break, page, all_videos.
      split_and!.
      * cbn [videos_loop].
        rewrite (videos_cond_spec self e all_videos page w He Hk), Hpage.
        rewrite (proj2 (Z.ltb_lt _ _) Hlt). cbn [andb].
        rewrite (fetch_page_spec self e all_videos page w He Hk).
        fold c. by rewrite Hsrv.
      * simpl. by exists (sent w), c, err.
      * exact Hpend.
  - rewrite (loop_stops_at_false_cond (S n) self e all_videos page w He Hk).
    + exists w, cond_false, page, all_videos.
      split_and!; [done| |done]. simpl.
      apply andb_false_iff in Hcond as [Hp|Hlt].
      * left. by destruct page.
      * right. by apply Z.ltb_ge.
    + apply andb_false_iff in Hcond as [Hp|Hlt].
      * left. by destruct page.
      * right. by apply Z.ltb_ge.
Qed.

Lemma resolve_pending self name v w :
  pending_at w self name →
  ∃ w', resolve self name v w = (w', Ok tt) ∧ resolved_at w' self name v.
Proof.
  intros (e & He & Hattr). unfold resolve, get_attr, bind.
  rewrite deref_spec, He, Hattr. unfold ret at 1, lift, future_set. simpl.
  assert (Hvalid : valid w self) by by eapply lookup_lt_Some.
  pose proof (set_attr_ok self name {| _queue := Some v |} w Hvalid) as [Hok _].
  pose proof (set_attr_resolved self name v w Hvalid) as Hres.
  destruct (set_attr self name {| _queue := Some v |} w) as [w' [[]|err]];
    [|done].
  by exists w'.
Qed.

(** X1: on a remote service whose pages are well formed and have a member
    or no continuation token, the job of [Playlist.videos] ends within
    [max_videos + 2] tests of the loop condition, leaves the loop because
    the cursor is [None], because [max_videos] members are there, or
    because a request raised, and then resolves [_videos] with the members
    accumulated. *)
Theorem member_expansion_terminates (self : nat) (w : World) :
  loop_inv self w →
  ∃ fuel w1 why page all_videos w2,
    (fuel ≤ Z.to_nat (max_videos w) + 2)%nat
    ∧ videos_loop fuel self [] (VStr "") w
      = Some (w1, Ok (why, page, all_videos))
    ∧ exit_reason w w1 why page all_videos
    ∧ Playlist_videos_job fuel self w = Some (w2, Ok tt)
    ∧ resolved_at w2 self "_videos" (VList (map VObj all_videos)).
Proof.
  intros Hinv.
  destruct (loop_terminates self (Z.to_nat (max_videos w)) [] (VStr "") w Hinv)
    as (w1 & why & page & all_videos & Hloop & Hexit & Hpend).
  { simpl. lia. }
  destruct (resolve_pending self "_videos" (VList (map VObj all_videos)) w1 Hpend)
    as (w2 & Hresolve & Hres).
  exists (S (S (Z.to_nat (max_videos w)))), w1, why, page, all_videos, w2.
  split_and!; [lia | done | done | | done].
  unfold Playlist_videos_job. by rewrite Hloop, Hresolve.
Qed.

Lemma member_record_ok vid title : member_ok (member_record vid title).
Proof. unfold member_ok, member_record. eexists _, _, _, _. by split_and!. Qed.

Lemma two_pages_loop_inv : loop_inv 0 (videos_requested service_two_pages).
Proof.
  split_and!.
  - intros x Hx.
    assert (Hc : cache (videos_requested service_two_pages)
                 = [(Playlist, VStr "PL1", 0%nat)]) by (vm_compute; reflexivity).
    rewrite Hc in Hx. apply list_elem_of_singleton in Hx as ->.
    eexists. split; [vm_compute; reflexivity | reflexivity].
  - intros hist pid page n data Hsrv.
    assert (Hs : service (videos_requested service_two_pages) = service_two_pages)
      by (vm_compute; reflexivity).
    rewrite Hs in Hsrv. unfold service_two_pages in Hsrv.
    assert (Hmembers : ∀ l, Forall member_ok
              (map (λ p : string * string, member_record p.1 p.2) l)).
    { intros l. apply Forall_forall. intros x (p & -> & _)%list_elem_of_fmap.
      apply member_record_ok. }
    destruct page as [| | |s| | |]; try destruct s; injection Hsrv as <-;
      eexists _, _;
      (split_and!;
       [reflexivity | reflexivity
       | first [ apply (Hmembers [("v1", "one"); ("v2", "two")])
               | apply (Hmembers [("v3", "three")]) ]
       | left; discriminate]).
  - eexists. split; [vm_compute; reflexivity | reflexivity].
  - eexists. split; [vm_compute; reflexivity | vm_compute; reflexivity].
Qed.

Lemma member_expansion_terminates_witness :
  ∃ fuel w2,
    Playlist_videos_job fuel 0 (videos_requested service_two_pages)
    = Some (w2, Ok tt).
Proof.
  destruct (member_expansion_terminates 0 (videos_requested service_two_pages)
              two_pages_loop_inv)
    as (fuel & w1 & why & page & all_videos & w2 & _ & _ & _ & Hjob & _).
  by exists fuel, w2.
Defined.

(** X2: in a round of the member loop on a well-formed page, exactly one
    request is sent and the members of the page are appended; a token that
    is missing, [None], the empty string or otherwise falsy ends the loop
    right after this page, and a truthy token is the cursor of the next
    round. *)
Theorem falsy_token_ends_pagination (self : nat) (e : Entry)
    (all_videos : list nat) (page : value) (kvs : list (string * value))
    (items : list value) (w : World) :
  cache_refs_ok w → heap w !! self = Some e → klass e = Playlist →
  is_not_None page = true →
  Z.of_nat (length all_videos) < max_videos w →
  service w (sent w)
    (API_list_playlistitems (id e) page
       (Z.min (max_videos w - Z.of_nat (length all_videos)) 50))
  = Ok (VDict kvs) →
  assoc "items" kvs = Some (VList items) →
  Forall member_ok items →
  ∃ w' my,
    length my = length items
    ∧ sent w' = sent w ++
        [API_list_playlistitems (id e) page
           (Z.min (max_videos w - Z.of_nat (length all_videos)) 50)]
    ∧ (truthy (default VNone (assoc "nextPageToken" kvs)) = false →
       ∀ fuel,
         videos_loop (S (S fuel)) self all_videos page w
         = Some (w', Ok (cond_false, VNone, all_videos ++ my)))
    ∧ (truthy (default VNone (assoc "nextPageToken" kvs)) = true →
       ∀ fuel,
         videos_loop (S fuel) self all_videos page w
         = videos_loop fuel self (all_videos ++ my)
             (default VNone (assoc "nextPageToken" kvs)) w').
Proof.
  intros Hok He Hk Hpage Hlt Hsrv Hitems Hall.
  destruct (loop_round self e all_videos page kvs items w
              Hok He Hk Hpage Hlt _ eq_refl Hsrv Hitems Hall)
    as (w3 & my & Hlen & Hok3 & Hsent & Hquiet & Hstep).
  exists w3, my. split_and!; [done|done| |].
  - intros Hfalsy fuel. rewrite Hstep. unfold or_None. rewrite Hfalsy.
    destruct Hquiet as (_ & _ & _ & Hheap).
    destruct (Hheap self e He) as (e3 & He3 & Hk3 & _).
    apply (loop_stops_at_false_cond fuel self e3); [done | congruence | by left].
  - intros Htruthy fuel. rewrite Hstep. unfold or_None. by rewrite Htruthy.
Qed.

Lemma falsy_token_ends_pagination_witness :
  ∃ w' my,
    videos_loop 2 0 [] (VStr "CAUQAA") (videos_requested service_two_pages)
    = Some (w', Ok (cond_false, VNone, my))
    ∧ length my = 1%nat.
Proof.
  destruct (falsy_token_ends_pagination 0
              {| klass := Playlist; id := VStr "PL1";
                 attrs := {["_videos" := new_future]} |}
              [] (VStr "CAUQAA")
              [("items", VList [member_record "v3" "three"])]
              [member_record "v3" "three"]
              (videos_requested service_two_pages))
    as (w' & my & Hlen & _ & Hstop & _).
  - apply two_pages_loop_inv.
  - vm_compute. reflexivity.
  - reflexivity.
  - reflexivity.
  - vm_compute. reflexivity.
  - vm_compute. reflexivity.
  - reflexivity.
  - apply Forall_singleton, member_record_ok.
  - exists w', my. split; [|exact Hlen]. by apply (Hstop eq_refl 0%nat).
Defined.

Lemma take_empty_page all_videos kvs w :
  assoc "items" kvs = Some (VList []) →
  take_page all_videos (VDict kvs) w
  = (w, Ok (or_None (default VNone (assoc "nextPageToken" kvs)),
            all_videos ++ [])).
Proof.
  intros Hitems. unfold take_page, bind at 1, lift at 1.
  assert (Htoken : dict_get (VDict kvs) "nextPageToken"
                   = Ok (default VNone (assoc "nextPageToken" kvs))).
  { simpl. by destruct (assoc "nextPageToken" kvs). }
  rewrite Htoken. unfold bind at 1, lift at 1. simpl subscript.
  rewrite Hitems. reflexivity.
Qed.

Lemma empty_pages_loop self fuel : ∀ page e w,
  heap w !! self = Some e → klass e = Playlist →
  0 < max_videos w →
  is_not_None page = true →
  (∀ hist pid cursor n, ∃ kvs,
      service w hist (API_list_playlistitems pid cursor n) = Ok (VDict kvs)
      ∧ assoc "items" kvs = Some (VList [])
      ∧ truthy (default VNone (assoc "nextPageToken" kvs)) = true) →
  videos_loop fuel self [] page w = None.
Proof.
  induction fuel as [|fuel IH]; intros page e w He Hk Hmax Hpage Hsrv; [done|].
  cbn [videos_loop].
  rewrite (videos_cond_spec self e [] page w He Hk), Hpage.
  replace (Z.of_nat (length (@nil nat)) <? max_videos w) with true
    by (symmetry; apply Z.ltb_lt; simpl; lia).
  cbn [andb]. rewrite (fetch_page_spec self e [] page w He Hk). cbv zeta.
  destruct (Hsrv (sent w) (id e) page
              (Z.min (max_videos w - Z.of_nat (length (@nil nat))) 50))
    as (kvs & -> & Hitems & Htoken).
  rewrite (take_empty_page [] kvs _ Hitems).
  unfold or_None. rewrite Htoken. simpl app.
  apply (IH _ e); try done.
  by destruct (default VNone (assoc "nextPageToken" kvs)).
Qed.

(** X3: the member loop is bounded by the number of members only; on a
    remote service that answers every page request with an empty page and
    a truthy continuation token the job of [Playlist.videos] never ends,
    whatever the number of rounds allowed. *)
Theorem empty_pages_never_end (self : nat) (e : Entry) (w : World) :
  heap w !! self = Some e → klass e = Playlist →
  0 < max_videos w →
  (∀ hist pid cursor n, ∃ kvs,
      service w hist (API_list_playlistitems pid cursor n) = Ok (VDict kvs)
      ∧ assoc "items" kvs = Some (VList [])
      ∧ truthy (default VNone (assoc "nextPageToken" kvs)) = true) →
  ∀ fuel, Playlist_videos_job fuel self w = None.
Proof.
  intros He Hk Hmax Hsrv fuel. unfold Playlist_videos_job.
  by rewrite (empty_pages_loop self fuel (VStr "") e w He Hk Hmax eq_refl Hsrv).
Qed.

Lemma empty_pages_never_end_witness :
  Playlist_videos_job 1000 0 (videos_requested service_endless) = None.
Proof.
  apply (empty_pages_never_end 0
           {| klass := Playlist; id := VStr "PL1";
              attrs := {["_videos" := new_future]} |}
           (videos_requested service_endless)).
  - vm_compute. reflexivity.
  - reflexivity.
  - vm_compute. reflexivity.
  - intros hist pid cursor n. eexists. split_and!; reflexivity.
Defined.

(** ** Decoding one field *)

Lemma lift_bind_result {A B} (r : res A) (f : A → M B) w w' :
  (∀ a, (f a w').2 = (f a w).2) →
  (bind (lift r) f w').2 = (bind (lift r) f w).2.
Proof. intros Hf. unfold bind, lift. destruct r; [apply Hf | done]. Qed.

Lemma self_max_videos_heap_only self w w' :
  heap_only w w' → (self_max_videos self w').2 = (self_max_videos self w).2.
Proof.
  intros (Hw & Hlen & Hsame). unfold self_max_videos, bind.
  rewrite !deref_spec. destruct (heap w !! self) as [e|] eqn:He.
  - destruct (Hsame self e He) as (e' & -> & Hk & _). rewrite Hk.
    destruct (klass e); [done|]. unfold get_max_videos. simpl.
    rewrite Hw. done.
  - destruct (heap w' !! self) as [e'|] eqn:He'; [|done].
    exfalso. apply lookup_lt_Some in He'. apply lookup_ge_None in He. lia.
Qed.

Lemma decode_heap_only self k item val w w' :
  heap_only w w' →
  (decode self k item val w').2 = (decode self k item val w).2.
Proof.
  intros Hframe. unfold decode.
  repeat match goal with
         | |- context [if ?b then _ else _] => destruct b
         end; try done; try (by apply lift_bind_result).
  apply lift_bind_result. intros n. unfold bind.
  pose proof (self_max_videos_heap_only self w w' Hframe) as Hm.
  pose proof (self_max_videos_state self w) as Hs.
  pose proof (self_max_videos_state self w') as Hs'.
  destruct (self_max_videos self w) as [w1 [m|e]],
           (self_max_videos self w') as [w1' [m'|e']];
    simpl in *; congruence.
Qed.

Lemma decode_result self k item val w r :
  (decode self k item val w).2 = r → decode self k item val w = (w, r).
Proof.
  intros <-. pose proof (decode_state self k item val w) as Hs.
  destruct (decode self k item val w) as [w1 r]. simpl in Hs. by subst.
Qed.

Lemma write_decoded self k item val f v w :
  valid w self → _queue f = None →
  (decode self k item val w).2 = Ok (Some v) →
  ∃ w1,
    (val' <- decode self k item val ;;
     match val' with
     | Some v0 =>
         f' <- lift (future_set f v0) ;;
         set_attr self ("_" +:+ k) f' ;;; ret val'
     | None => raise UnboundLocalError
     end) w = (w1, Ok (Some v))
    ∧ resolved_at w1 self ("_" +:+ k) v
    ∧ heap_only w w1.
Proof.
  intros Hself Hq Hdec. unfold bind at 1.
  rewrite (decode_result _ _ _ _ _ _ Hdec).
  unfold bind, lift, future_set. rewrite Hq.
  destruct (set_attr_ok self ("_" +:+ k) {| _queue := Some v |} w Hself)
    as [Hok Hframe].
  pose proof (set_attr_resolved self ("_" +:+ k) v w Hself) as Hres.
  destruct (set_attr self ("_" +:+ k) {| _queue := Some v |} w)
    as [w1 [[]|err]]; [|done].
  by exists w1.
Qed.

(** A field that is not resolved yet takes the value decoded for it. *)
Lemma set_field_decoded self k item val v w :
  valid w self →
  (∀ u, ¬ resolved_at w self ("_" +:+ k) u) →
  (decode self k item val w).2 = Ok (Some v) →
  ∃ w1,
    set_field self item val k w = (w1, Ok (Some v))
    ∧ resolved_at w1 self ("_" +:+ k) v
    ∧ heap_only w w1.
Proof.
  intros Hself Hnot Hdec. unfold set_field, bind at 1. rewrite deref_spec.
  destruct (lookup_lt_is_Some_2 (heap w) self Hself) as [e He]. rewrite He.
  destruct (attrs e !! ("_" +:+ k)) as [f|] eqn:Hattr.
  - unfold bind at 1, ret at 1. destruct (_queue f) as [u|] eqn:Hq.
    + exfalso. apply (Hnot u). exists e. split; [done|].
      rewrite Hattr. by destruct f; simpl in *; subst.
    + by apply write_decoded.
  - unfold bind at 1. unfold bind at 1.
    destruct (set_attr_ok self ("_" +:+ k) new_future w Hself) as [Hok Hframe].
    destruct (set_attr self ("_" +:+ k) new_future w) as [w0 [[]|err]];
      simpl in Hok, Hframe; [|done].
    unfold ret at 1. change (_queue new_future) with (@None value).
    destruct (write_decoded self k item val new_future v w0)
      as (w1 & Hrun & Hres & Hframe1);
      [by eapply heap_only_valid | done | |].
    { by rewrite (decode_heap_only self k item val w w0 Hframe). }
    exists w1. split_and!; [done | done | by eapply heap_only_trans].
Qed.

(** X4: when the [video_count] of a playlist is not resolved yet, a record
    with an integer [itemCount] resolves it to the smaller of that count and
    [Playlist.max_videos]: a playlist of 500 shows 60 with the default. *)
Theorem video_count_is_clamped (self : nat) (e : Entry) (item details : value)
    (n : Z) (w : World) :
  heap w !! self = Some e → klass e = Playlist →
  (∀ u, ¬ resolved_at w self "_video_count" u) →
  subscript item "contentDetails" = Ok details →
  subscript details "itemCount" = Ok (VInt n) →
  ∃ w1,
    _set_api_data self ["video_count"] item w = (w1, Ok tt)
    ∧ resolved_at w1 self "_video_count" (VInt (Z.min n (max_videos w))).
Proof.
  intros He Hk Hnot Hdetails Hcount.
  assert (Hself : valid w self) by by eapply lookup_lt_Some.
  destruct (set_field_decoded self "video_count" item None
              (VInt (Z.min n (max_videos w))) w Hself Hnot)
    as (w1 & Hrun & Hres & _).
  { unfold decode. rewrite (subscript_truthy _ _ _ Hdetails). simpl.
    unfold bind, lift. rewrite Hdetails. simpl. rewrite Hcount.
    unfold self_max_videos, bind. rewrite deref_spec, He, Hk. simpl.
    do 3 f_equal. destruct (Z.ltb_spec (max_videos w) n); f_equal; lia. }
  exists w1. split; [|done].
  unfold _set_api_data. cbn [set_fields]. unfold bind. by rewrite Hrun.
Qed.

Ltac not_resolved :=
  let u := fresh "u" in
  let e := fresh "e" in
  let He := fresh "He" in
  let Hattr := fresh "Hattr" in
  intros u (e & He & Hattr); vm_compute in He; injection He as <-;
  vm_compute in Hattr; discriminate.

Lemma video_count_is_clamped_witness :
  ∃ w1,
    _set_api_data 0 ["video_count"] (playlist_record 500) playlist_world
    = (w1, Ok tt)
    ∧ resolved_at w1 0 "_video_count" (VInt 60).
Proof.
  refine (video_count_is_clamped 0
            {| klass := Playlist; id := VStr "PL1"; attrs := ∅ |}
            (playlist_record 500) (VDict [("itemCount", VInt 500)]) 500
            playlist_world _ _ _ _ _).
  - vm_compute. reflexivity.
  - reflexivity.
  - not_resolved.
  - reflexivity.
  - reflexivity.
Defined.

(** ** Durations the pattern does not find *)

Lemma match_here_PT post : ∃ m, match_here ("PT" +:+ post) = Some m.
Proof.
  change ("PT" +:+ post) with (String "P" (String "T" post)).
  unfold match_here.
  destruct (component "H" post) as [h r1].
  destruct (component "M" r1) as [m r2].
  destruct (component "S" r2) as [sec r3]. by eexists.
Qed.

Lemma re_search_here s m : match_here s = Some m → re_search s = Some m.
Proof. intros Hm. destruct s; cbn [re_search]; by rewrite Hm. Qed.

Lemma re_search_finds_PT pre post :
  ∃ m, re_search (pre +:+ "PT" +:+ post) = Some m.
Proof.
  induction pre as [|c pre IH].
  - rewrite append_empty. destruct (match_here_PT post) as [m Hm].
    exists m. by apply re_search_here.
  - rewrite append_cons. cbn [re_search].
    destruct (match_here (String c (pre +:+ "PT" +:+ post))) as [m|];
      [by exists m | exact IH].
Qed.

Lemma match_here_first c r :
  c ≠ "P"%char → match_here (String c r) = None.
Proof.
  intros Hc. destruct c as [[] [] [] [] [] [] [] []]; try done.
Qed.

Lemma match_here_second c r :
  c ≠ "T"%char → match_here (String "P" (String c r)) = None.
Proof.
  intros Hc. destruct c as [[] [] [] [] [] [] [] []]; try done.
Qed.

Lemma match_here_None s :
  substring 0 2 s ≠ "PT" → match_here s = None.
Proof.
  intros Hs. destruct s as [|c1 s]; [done|].
  destruct (Ascii.eqb_spec c1 "P") as [->|H1]; [|by apply match_here_first].
  destruct s as [|c2 r]; [done|].
  destruct (Ascii.eqb_spec c2 "T") as [->|H2]; [|by apply match_here_second].
  exfalso. apply Hs. simpl. by destruct r.
Qed.

Lemma re_search_None s :
  (∀ n, substring n 2 s ≠ "PT") → re_search s = None.
Proof.
  induction s as [|c s IH]; intros Hs; [done|].
  cbn [re_search]. rewrite (match_here_None _ (Hs 0%nat)).
  apply IH. intros n. apply (Hs (S n)).
Qed.

(** X5: the decoder of [length] succeeds exactly on durations that contain
    [PT]: wherever [PT] stands in the string the result is an integer, and
    a duration without [PT] (such as [P1D], or [P1DT2H] for a video longer
    than a day, where [T] follows [D]) raises [AttributeError] on
    [m.group]. *)
Theorem duration_needs_PT (item details : value) (s : string) :
  subscript item "contentDetails" = Ok details →
  subscript details "duration" = Ok (VStr s) →
  ((∃ pre post, s = pre +:+ "PT" +:+ post) →
   ∃ n, decode_length item = Ok (VInt n))
  ∧ ((∀ n, substring n 2 s ≠ "PT") →
     decode_length item = Raise AttributeError).
Proof.
  intros Hdetails Hduration. unfold decode_length.
  rewrite Hdetails. cbn [res_bind]. rewrite Hduration. cbn [res_bind].
  split.
  - intros (pre & post & ->).
    destruct (re_search_finds_PT pre post) as [m ->]. by eexists.
  - intros Hnone. by rewrite re_search_None.
Qed.

Lemma duration_needs_PT_witness :
  decode_length (video_record "P1DT2H") = Raise AttributeError.
Proof.
  refine (proj2 (duration_needs_PT (video_record "P1DT2H")
                   (VDict [("duration", VStr "P1DT2H")]) "P1DT2H" _ _) _);
    [reflexivity | reflexivity |].
  intros n. do 7 (destruct n as [|n]; [discriminate|]). discriminate.
Defined.

(** ** Adding futures *)

Lemma set_attr_attr obj name f w r n :
  valid w obj →
  attr (set_attr obj name f w).1 r n
  = if decide (r = obj ∧ n = name) then Some f else attr w r n.
Proof.
  intros Hobj. unfold set_attr, attr.
  destruct (lookup_lt_is_Some_2 (heap w) obj Hobj) as [e He]. rewrite He.
  simpl. destruct (decide (r = obj)) as [->|Hr].
  - rewrite list_lookup_insert_eq by done. simpl.
    destruct (decide (n = name)) as [->|Hn].
    + rewrite lookup_insert_eq. by rewrite decide_True.
    + rewrite lookup_insert_ne by done. rewrite He.
      rewrite decide_False; [done | by intros [_ ?]].
  - rewrite list_lookup_insert_ne by done.
    rewrite decide_False; [done | by intros [? _]].
Qed.

Lemma add_future_attr obj added k w :
  valid w obj →
  ∃ w1,
    add_future obj added k w
    = (w1, Ok (match attr w obj ("_" +:+ k) with Some _ => added | None => true end))
    ∧ heap_only w w1
    ∧ ∀ r n, attr w1 r n
             = match attr w r n with
               | Some f => Some f
               | None => if decide (r = obj ∧ n = "_" +:+ k)
                         then Some new_future else None
               end.
Proof.
  intros Hobj. unfold add_future, bind at 1. rewrite deref_spec.
  destruct (lookup_lt_is_Some_2 (heap w) obj Hobj) as [e He].
  assert (Hattr : attr w obj ("_" +:+ k) = attrs e !! ("_" +:+ k)).
  { unfold attr. by rewrite He. }
  rewrite He, Hattr. destruct (attrs e !! ("_" +:+ k)) as [f|] eqn:Hk.
  - exists w. split_and!; [done | apply heap_only_refl |].
    intros r n. destruct (attr w r n) eqn:Hrn; [done|].
    rewrite decide_False; [done|]. intros [-> ->]. congruence.
  - pose proof (set_attr_ok obj ("_" +:+ k) new_future w Hobj) as [Hok Hframe].
    pose proof (set_attr_attr obj ("_" +:+ k) new_future w) as Hset.
    unfold bind.
    destruct (set_attr obj ("_" +:+ k) new_future w) as [w1 [[]|err]];
      simpl in Hok, Hframe, Hset; [|done].
    exists w1. split_and!; [done|done|].
    intros r n. rewrite (Hset r n Hobj).
    destruct (decide (r = obj ∧ n = "_" +:+ k)) as [[-> ->]|Hne].
    + by rewrite Hattr.
    + by destruct (attr w r n).
Qed.

Lemma add_from_attr fields obj added w :
  valid w obj →
  ∃ w1 b,
    add_from obj added fields w = (w1, Ok b)
    ∧ heap_only w w1
    ∧ (b = true ↔
       added = true ∨ ∃ k, k ∈ fields ∧ attr w obj ("_" +:+ k) = None)
    ∧ ∀ r n, attr w1 r n
             = match attr w r n with
               | Some f => Some f
               | None => if decide (r = obj ∧ n ∈ futures_of fields)
                         then Some new_future else None
               end.
Proof.
  revert added w. induction fields as [|k rest IH]; intros added w Hobj.
  - exists w, added. split_and!; [done | apply heap_only_refl | |].
    + split; [by left|]. intros [?|(k & Hk & _)]; [done|].
      by apply elem_of_nil in Hk.
    + intros r n. destruct (attr w r n); [done|].
      rewrite decide_False; [done|]. intros [_ Hn]. by apply elem_of_nil in Hn.
  - destruct (add_future_attr obj added k w Hobj) as (w1 & Hrun & Hframe & Hattr).
    destruct (IH (match attr w obj ("_" +:+ k) with Some _ => added | None => true end) w1)
      as (w2 & b & Hrun2 & Hframe2 & Hb & Hattr2).
    { by eapply heap_only_valid. }
    exists w2, b. split_and!.
    + cbn [add_from]. unfold bind. by rewrite Hrun.
    + by eapply heap_only_trans.
    + rewrite Hb. split.
      * intros [Hadded|(k' & Hk' & Hnone)].
        -- destruct (attr w obj ("_" +:+ k)) eqn:Hk; [by left|].
           right. exists k. split; [by left | done].
        -- right. exists k'. split; [by right|].
           rewrite Hattr in Hnone. by destruct (attr w obj ("_" +:+ k')).
      * intros [->|(k' & [->|Hk']%elem_of_cons & Hnone)].
        -- left. by destruct (attr w obj ("_" +:+ k)).
        -- left. by rewrite Hnone.
        -- destruct (attr w obj ("_" +:+ k)) eqn:Hk.
           ++ right. exists k'. split; [done|]. rewrite Hattr, Hnone.
              rewrite decide_False; [done|]. intros [_ Heq].
              rewrite Heq in Hnone. congruence.
           ++ by left.
    + intros r n. rewrite Hattr2, Hattr. unfold futures_of. cbn [map].
      destruct (attr w r n) as [f|]; [done|].
      destruct (decide (r = obj ∧ n = "_" +:+ k)) as [[-> ->]|Hne].
      * rewrite decide_True; [done|]. split; [done | by left].
      * destruct (decide (r = obj ∧ n ∈ map (λ k0, "_" +:+ k0) rest))
          as [[-> Hn]|Hne2].
        -- rewrite decide_True; [done|]. split; [done | by right].
        -- rewrite decide_False; [done|].
           intros [-> [->|Hn]%elem_of_cons]; [by apply Hne | by apply Hne2].
Qed.

Lemma elem_of_futures_of k fields : k ∈ fields → "_" +:+ k ∈ futures_of fields.
Proof.
  intros Hk. unfold futures_of.
  by apply (list_elem_of_fmap_2 (λ k0, "_" +:+ k0)).
Qed.

(** What [_add_futures] does: it creates the missing futures of the group
    on the entities of the list and touches no future that exists; it
    returns, once each and in the order of the list, the entities that
    lacked one. *)
Lemma add_futures_attr fields l w :
  Forall (valid w) l →
  ∃ w1 kept,
    _add_futures l fields w = (w1, Ok kept)
    ∧ heap_only w w1
    ∧ (∀ r n, attr w1 r n
              = match attr w r n with
                | Some f => Some f
                | None => if decide (r ∈ l ∧ n ∈ futures_of fields)
                          then Some new_future else None
                end)
    ∧ (∀ r, r ∈ kept ↔
            r ∈ l ∧ ∃ k, k ∈ fields ∧ attr w r ("_" +:+ k) = None)
    ∧ NoDup kept.
Proof.
  unfold _add_futures. revert w.
  induction l as [|x l IH]; intros w Hall.
  - exists w, []. split_and!; [done | apply heap_only_refl | | |constructor].
    + intros r n. destruct (attr w r n); [done|].
      rewrite decide_False; [done|]. intros [Hr _]. by apply elem_of_nil in Hr.
    + intros r. split; [by intros ?%elem_of_nil|].
      intros [Hr _]. by apply elem_of_nil in Hr.
  - apply Forall_cons in Hall as [Hx Hl].
    destruct (add_from_attr fields x false w Hx)
      as (w1 & b & Hrun & Hframe & Hb & Hattr).
    destruct (IH w1) as (w2 & kept & Hrun2 & Hframe2 & Hattr2 & Hkept & Hnodup).
    { eapply Forall_impl; [exact Hl|]. intros r. by apply heap_only_valid. }
    assert (Hnone1 : ∀ r k, k ∈ fields →
              attr w1 r ("_" +:+ k) = None
              ↔ attr w r ("_" +:+ k) = None ∧ r ≠ x).
    { intros r k Hk. rewrite Hattr.
      destruct (attr w r ("_" +:+ k)) as [f|]; [by split; [|intros []]|].
      destruct (decide (r = x ∧ "_" +:+ k ∈ futures_of fields)) as [[-> _]|Hne].
      - split; [done | by intros [_ ?]].
      - split; [|done]. intros _. split; [done|]. intros ->.
        apply Hne. split; [done | by apply elem_of_futures_of]. }
    assert (Hkept1 : ∀ r, r ∈ kept ↔
              r ∈ l ∧ r ≠ x ∧ ∃ k, k ∈ fields ∧ attr w r ("_" +:+ k) = None).
    { intros r. rewrite Hkept. split.
      - intros (Hr & k & Hk & Hnone). apply (Hnone1 r k Hk) in Hnone as [? ?].
        eauto.
      - intros (Hr & Hne & k & Hk & Hnone). split; [done|].
        exists k. split; [done|]. by apply (Hnone1 r k Hk). }
    exists w2, (if b then x :: kept else kept). split_and!.
    + cbn [filterM]. unfold bind at 1.
      change (add fields x w) with (add_from x false fields w). rewrite Hrun.
      unfold bind at 1. by rewrite Hrun2.
    + by eapply heap_only_trans.
    + intros r n. rewrite Hattr2, Hattr.
      destruct (attr w r n) as [f|]; [done|].
      destruct (decide (r = x ∧ n ∈ futures_of fields)) as [[-> Hn]|Hne].
      * rewrite decide_True; [done|]. split; [by left | done].
      * destruct (decide (r ∈ l ∧ n ∈ futures_of fields)) as [[Hr Hn]|Hne2].
        -- rewrite decide_True; [done|]. split; [by right | done].
        -- rewrite decide_False; [done|].
           intros [[->|Hr]%elem_of_cons Hn]; [by apply Hne | by apply Hne2].
    + intros r.
      assert (Hbx : b = true ↔ ∃ k, k ∈ fields ∧ attr w x ("_" +:+ k) = None).
      { rewrite Hb. split; [by intros [?|?] | by right]. }
      destruct b.
      * rewrite elem_of_cons, Hkept1. split.
        -- intros [->|(Hr & _ & Hk)].
           ++ split; [by left | by apply Hbx].
           ++ split; [by right | done].
        -- intros ([->|Hr]%elem_of_cons & Hk); [by left|].
           destruct (decide (r = x)) as [->|Hne]; [by left|]. by right.
      * rewrite Hkept1. split.
        -- intros (Hr & _ & Hk). split; [by right | done].
        -- intros ([->|Hr]%elem_of_cons & Hk).
           ++ by apply Hbx in Hk.
           ++ split_and!; [done| |done]. intros ->. by apply Hbx in Hk.
    + destruct b; [|done]. apply NoDup_cons. split; [|done].
      rewrite Hkept1. by intros (_ & ? & _).
Qed.

Lemma add_from_present fields obj added w :
  (∀ k, k ∈ fields → is_Some (attr w obj ("_" +:+ k))) →
  add_from obj added fields w = (w, Ok added).
Proof.
  revert added. induction fields as [|k rest IH]; intros added Hall; [done|].
  cbn [add_from]. unfold bind at 1, add_future, bind at 1.
  destruct (Hall k) as [f Hf]; [by left|]. unfold attr in Hf.
  rewrite deref_spec. destruct (heap w !! obj) as [e|]; [|done].
  rewrite Hf. unfold ret at 1. apply IH. intros k' Hk'. apply Hall. by right.
Qed.

Lemma add_futures_present fields l w :
  (∀ r k, r ∈ l → k ∈ fields → is_Some (attr w r ("_" +:+ k))) →
  _add_futures l fields w = (w, Ok []).
Proof.
  unfold _add_futures. induction l as [|x l IH]; intros Hall; [done|].
  cbn [filterM]. unfold bind at 1.
  change (add fields x w) with (add_from x false fields w).
  rewrite add_from_present by (intros k Hk; apply Hall; [by left | done]).
  unfold bind at 1. rewrite IH; [done|].
  intros r k Hr Hk. apply Hall; [by right | done].
Qed.

Lemma submit_no_chunk mk w : submit_chunks mk [] w = (w, Ok tt).
Proof. reflexivity. Qed.

(** A [load_info] over entities whose futures of the group all exist does
    nothing. *)
Lemma load_info_present fields mk l w :
  (∀ r k, r ∈ l → k ∈ fields → is_Some (attr w r ("_" +:+ k))) →
  (l' <- _add_futures l fields ;; submit_chunks mk l') w = (w, Ok tt).
Proof.
  intros Hall. unfold bind. by rewrite (add_futures_present fields l w Hall).
Qed.

Lemma load_info_fills fields mk l w :
  Forall (valid w) l →
  ∀ r k, r ∈ l → k ∈ fields →
    is_Some (attr ((l' <- _add_futures l fields ;; submit_chunks mk l') w).1
               r ("_" +:+ k)).
Proof.
  intros Hl r k Hr Hk.
  destruct (add_futures_attr fields l w Hl)
    as (w1 & kept & Hrun & _ & Hattr & _).
  unfold bind. rewrite Hrun.
  destruct (submit_chunks_spec mk kept w1) as (p & -> & _). simpl.
  change (attr (with_pool p w1) r ("_" +:+ k)) with (attr w1 r ("_" +:+ k)).
  rewrite Hattr. destruct (attr w r ("_" +:+ k)); [done|].
  rewrite decide_True; [done|]. split; [done | by apply elem_of_futures_of].
Qed.

(** X6: [load_info] is idempotent: once it has run over a list, running it
    again over that list or any part of it adds no future, queues no job
    and leaves the whole state as it is, for videos and for playlists. *)
Theorem second_load_info_does_nothing (w : World) (l l' : list nat) :
  Forall (valid w) l → l' ⊆ l →
  Video_load_info l' (Video_load_info l w).1
  = ((Video_load_info l w).1, Ok tt)
  ∧ Playlist_load_info l' (Playlist_load_info l w).1
    = ((Playlist_load_info l w).1, Ok tt).
Proof.
  intros Hl Hsub. split.
  - apply (load_info_present Video_fields Video_info).
    intros r k Hr Hk. apply (load_info_fills Video_fields Video_info l w Hl);
      [by apply Hsub | done].
  - apply (load_info_present Playlist_fields Playlist_info).
    intros r k Hr Hk.
    apply (load_info_fills Playlist_fields Playlist_info l w Hl);
      [by apply Hsub | done].
Qed.

Lemma second_load_info_does_nothing_witness :
  Video_load_info [1%nat] (Video_load_info [0; 1; 2]%nat (videos_world 3)).1
  = ((Video_load_info [0; 1; 2]%nat (videos_world 3)).1, Ok tt).
Proof.
  refine (proj1 (second_load_info_does_nothing (videos_world 3)
                   [0; 1; 2]%nat [1%nat] _ _)).
  - repeat (apply Forall_cons; split; [unfold valid; vm_compute; lia|]).
    apply Forall_nil_2.
  - intros x ->%list_elem_of_singleton. right. by left.
Defined.

(** X7: [_add_futures] creates an empty future for every field of the
    group that an entity of the list lacks and leaves every existing
    future, pending or resolved, as it is; it returns, in the order of the
    list and each only once even if the list repeats it, exactly the
    entities that lacked a future. *)
Theorem add_futures_returns_the_needy_once (fields : list string)
    (l : list nat) (w : World) :
  Forall (valid w) l →
  ∃ w1 kept,
    _add_futures l fields w = (w1, Ok kept)
    ∧ kept `sublist_of` l
    ∧ NoDup kept
    ∧ (∀ r, r ∈ kept ↔
            r ∈ l ∧ ∃ k, k ∈ fields ∧ attr w r ("_" +:+ k) = None)
    ∧ (∀ r n, attr w1 r n
              = match attr w r n with
                | Some f => Some f
                | None => if decide (r ∈ l ∧ n ∈ futures_of fields)
                          then Some new_future else None
                end).
Proof.
  intros Hl.
  destruct (add_futures_attr fields l w Hl)
    as (w1 & kept & Hrun & _ & Hattr & Hkept & Hnodup).
  destruct (add_futures_ok fields l w Hl) as (kept' & Hres & _ & Hsub).
  rewrite Hrun in Hres. injection Hres as <-.
  by exists w1, kept.
Qed.

Lemma add_futures_returns_the_needy_once_witness :
  ∃ w1 kept,
    _add_futures [1; 0; 1]%nat Video_fields (videos_world 2) = (w1, Ok kept)
    ∧ NoDup kept.
Proof.
  destruct (add_futures_returns_the_needy_once Video_fields [1; 0; 1]%nat
              (videos_world 2))
    as (w1 & kept & Hrun & _ & Hnodup & _).
  - repeat (apply Forall_cons; split; [unfold valid; vm_compute; lia|]).
    apply Forall_nil_2.
  - by exists w1, kept.
Defined.

(** ** Reading a property for the first time *)

Lemma chunks_singleton {A} (x : A) : chunks [x] = [[x]].
Proof. reflexivity. Qed.

Lemma first_load fields mk name r e w :
  heap w !! r = Some e → name ∈ fields →
  attrs e !! ("_" +:+ name) = None →
  ∃ w1,
    (l' <- _add_futures [r] fields ;; submit_chunks mk l') w = (w1, Ok tt)
    ∧ jobs (pool w1) = jobs (pool w) ++ [mk [r]]
    ∧ sent w1 = sent w
    ∧ attr w1 r ("_" +:+ name) = Some new_future.
Proof.
  intros He Hname Hnone.
  assert (Hr : valid w r) by by eapply lookup_lt_Some.
  assert (Hattr0 : attr w r ("_" +:+ name) = None).
  { unfold attr. by rewrite He. }
  destruct (add_futures_attr fields [r] w)
    as (w1 & kept & Hrun & Hframe & Hattr & Hkept & Hnodup).
  { by apply Forall_singleton. }
  assert (kept = [r]) as ->.
  { assert (Hin : r ∈ kept).
    { apply Hkept. split; [by left|]. by exists name. }
    assert (Hall : ∀ x, x ∈ kept → x = r).
    { intros x Hx. apply Hkept in Hx as [Hx _].
      by apply list_elem_of_singleton in Hx. }
    destruct kept as [|a [|b rest]].
    - by apply elem_of_nil in Hin.
    - f_equal. apply Hall. by left.
    - exfalso. apply NoDup_cons in Hnodup as [Hnotin _]. apply Hnotin.
      rewrite (Hall a) by by left.
      rewrite <- (Hall b) at 1 by (right; by left). by left. }
  destruct (submit_chunks_spec mk [r] w1) as (p & Hsubmit & Hjobs).
  exists (with_pool p w1). split_and!.
  - unfold bind. by rewrite Hrun.
  - simpl. rewrite Hjobs, chunks_singleton. simpl.
    by destruct Hframe as [-> _].
  - simpl. by apply heap_only_sent.
  - change (attr (with_pool p w1) r ("_" +:+ name))
      with (attr w1 r ("_" +:+ name)).
    rewrite Hattr, Hattr0. rewrite decide_True; [done|].
    split; [by left | by apply elem_of_futures_of].
Qed.

Lemma first_read cls_fields mk name r e w :
  heap w !! r = Some e →
  (klass e = Video ∧ cls_fields = Video_fields ∧ mk = Video_info
   ∨ klass e = Playlist ∧ cls_fields = Playlist_fields ∧ mk = Playlist_info) →
  name ∈ cls_fields →
  attrs e !! ("_" +:+ name) = None →
  ∃ w1,
    async_property name load_info r w = (w1, Ok new_future)
    ∧ jobs (pool w1) = jobs (pool w) ++ [mk [r]]
    ∧ sent w1 = sent w
    ∧ async_property name load_info r w1 = (w1, Ok new_future).
Proof.
  intros He Hcls Hname Hnone.
  destruct (first_load cls_fields mk name r e w He Hname Hnone)
    as (w1 & Hrun & Hjobs & Hsent & Hattr).
  assert (Hload : load_info r w = (w1, Ok tt)).
  { unfold load_info, bind. rewrite deref_spec, He.
    destruct Hcls as [(-> & -> & ->)|(-> & -> & ->)]; exact Hrun. }
  unfold attr in Hattr.
  destruct (heap w1 !! r) as [e1|] eqn:He1; [|done].
  exists w1. split_and!; [|done|done|].
  - unfold async_property, bind at 1. rewrite deref_spec, He, Hnone.
    unfold bind at 1. rewrite Hload.
    unfold bind. by rewrite deref_spec, He1, Hattr.
  - by apply (async_property_present name load_info r e1).
Qed.

(** X8: the first read of [title], [length] or [channel] of a video whose
    future is missing queues exactly one job, for the chunk made of this
    video alone, sends nothing itself and hands back an empty future; the
    next read hands back the same future and changes nothing. Likewise for
    [title], [video_count], [thumbnails] and [channel] of a playlist. *)
Theorem first_read_queues_one_job (name : string) (r : nat) (e : Entry)
    (w : World) :
  heap w !! r = Some e →
  attrs e !! ("_" +:+ name) = None →
  (klass e = Video → name ∈ Video_fields →
   ∃ w1,
     async_property name load_info r w = (w1, Ok new_future)
     ∧ jobs (pool w1) = jobs (pool w) ++ [Video_info [r]]
     ∧ sent w1 = sent w
     ∧ async_property name load_info r w1 = (w1, Ok new_future))
  ∧ (klass e = Playlist → name ∈ Playlist_fields →
     ∃ w1,
       async_property name load_info r w = (w1, Ok new_future)
       ∧ jobs (pool w1) = jobs (pool w) ++ [Playlist_info [r]]
       ∧ sent w1 = sent w
       ∧ async_property name load_info r w1 = (w1, Ok new_future)).
Proof.
  intros He Hnone. split; intros Hk Hname.
  - apply (first_read Video_fields Video_info name r e w He); auto.
  - apply (first_read Playlist_fields Playlist_info name r e w He); auto.
Qed.

Lemma first_read_queues_one_job_witness :
  ∃ w1,
    Playlist_video_count 0 playlist_world = (w1, Ok new_future)
    ∧ jobs (pool w1) = [Playlist_info [0%nat]].
Proof.
  destruct (first_read_queues_one_job "video_count" 0
              {| klass := Playlist; id := VStr "PL1"; attrs := ∅ |}
              playlist_world)
    as [_ Hplaylist].
  - vm_compute. reflexivity.
  - reflexivity.
  - destruct Hplaylist as (w1 & Hread & Hjobs & _); [reflexivity| |].
    + unfold Playlist_fields. right. by left.
    + exists w1. split; [exact Hread | exact Hjobs].
Defined.

(** ** The pool under a burst *)

Lemma submit_all_spec js : ∀ p,
  pool_inv p →
  pool_inv (submit_all js p)
  ∧ threads_max (submit_all js p) = threads_max p
  ∧ jobs (submit_all js p) = jobs p ++ js
  ∧ threads_active (submit_all js p)
    = Z.min (threads_active p + Z.of_nat (length js)) (threads_max p).
Proof.
  induction js as [|j js IH]; intros p Hinv.
  - simpl. rewrite app_nil_r. pose proof Hinv as [_ Hmax].
    split_and!; [done | done | done | lia].
  - assert (Hstep : pool_inv (pool_run j p)).
    { apply (pool_step_inv p); [constructor | done]. }
    destruct (IH (pool_run j p) Hstep) as (Hinv' & Hmax' & Hjobs' & Hact').
    simpl. split_and!; [done | | |].
    + rewrite Hmax'. apply (pool_step_max p). constructor.
    + rewrite Hjobs', jobs_pool_run, <- app_assoc. done.
    + rewrite Hact'. destruct Hinv as [_ Hle]. unfold pool_run.
      destruct (Z.ltb_spec (threads_active p) (threads_max p)); simpl; lia.
Qed.

(** X9: jobs submitted in a row are queued in the order submitted, and
    each submission starts one worker until [threads_max] workers are
    alive: after [K] submissions to a pool with [a] workers the count is
    [min(a + K, threads_max)]; an idle pool with the default maximum has
    [min(K, 15)] workers. *)
Theorem burst_starts_up_to_max_workers (js : list job) (p : ThreadPool) :
  pool_inv p →
  jobs (submit_all js p) = jobs p ++ js
  ∧ threads_active (submit_all js p)
    = Z.min (threads_active p + Z.of_nat (length js)) (threads_max p)
  ∧ Z.of_nat (length (threads (submit_all js p)))
    = threads_active (submit_all js p)
  ∧ threads_max (submit_all js p) = threads_max p.
Proof.
  intros Hinv.
  destruct (submit_all_spec js p Hinv) as ([Hcount _] & Hmax & Hjobs & Hact).
  by split_and!.
Qed.

Lemma burst_starts_up_to_max_workers_witness :
  threads_active
    (submit_all [Videos 0; Audio_url 1; Video_info [1; 2]%nat] ThreadPool_init)
  = 3
  ∧ threads_active (submit_all (replicate 25 (Audio_url 0)) ThreadPool_init)
    = 15.
Proof.
  split.
  - destruct (burst_starts_up_to_max_workers
                [Videos 0; Audio_url 1; Video_info [1; 2]%nat] ThreadPool_init)
      as (_ & Hact & _); [|by rewrite Hact].
    split; simpl; lia.
  - destruct (burst_starts_up_to_max_workers
                (replicate 25 (Audio_url 0)) ThreadPool_init)
      as (_ & Hact & _); [|by rewrite Hact].
    split; simpl; lia.
Defined.

Lemma pool_step_has_worker p q :
  pool_step p q → pool_inv p → 1 ≤ threads_max p →
  (jobs p ≠ [] → 0 < threads_active p) →
  jobs q ≠ [] → 0 < threads_active q.
Proof.
  intros Hstep [Hcount Hle] Hmax Hworker.
  destruct Hstep as [j p|i js j p Hi Hjobs|i p Hi Hjobs|i j p Hi]; simpl.
  - intros _. unfold pool_run.
    destruct (Z.ltb_spec (threads_active p) (threads_max p)); simpl; lia.
  - intros _. apply Hworker. rewrite Hjobs. by destruct js.
  - done.
  - done.
Qed.

(** X10: in a pool started idle with [threads_max] of at least 1, a queued
    job always has a live worker: in every state reached by submissions and
    worker steps, a non-empty queue comes with a positive worker count, so
    no job is left behind by the last worker going away. With a maximum of
    0 or less no worker is ever started. *)
Theorem queued_job_has_a_worker (p0 p : ThreadPool) :
  threads p0 = [] → threads_active p0 = 0 → jobs p0 = [] →
  rtc pool_step p0 p →
  (1 ≤ threads_max p0 → jobs p ≠ [] →
   0 < threads_active p ∧ threads p ≠ [])
  ∧ (threads_max p0 ≤ 0 → threads p = []).
Proof.
  intros Hthreads Hactive Hjobs Hreach. split.
  - intros Hmax.
    assert (Hall : pool_inv p ∧ threads_max p = threads_max p0
                   ∧ (jobs p ≠ [] → 0 < threads_active p)).
    { revert p Hreach.
      apply (rtc_ind_r (R := pool_step)
               (λ p, pool_inv p ∧ threads_max p = threads_max p0
                     ∧ (jobs p ≠ [] → 0 < threads_active p))).
      - split_and!; [|done|by rewrite Hjobs].
        unfold pool_inv. rewrite Hthreads, Hactive. simpl. lia.
      - intros p q _ Hstep (Hinv & Hsame & Hworker). split_and!.
        + by apply (pool_step_inv p).
        + by rewrite (pool_step_max p q Hstep).
        + apply (pool_step_has_worker p q); [done | done | lia | done]. }
    destruct Hall as ([Hcount _] & _ & Hworker). intros Hq.
    split; [by apply Hworker|]. intros Hnil. rewrite Hnil in Hcount.
    specialize (Hworker Hq). simpl in Hcount. lia.
  - intros Hmax.
    assert (Hnone : threads p = [] ∧ threads_active p = 0
                    ∧ threads_max p = threads_max p0).
    { revert p Hreach.
      apply (rtc_ind_r (R := pool_step)
               (λ p, threads p = [] ∧ threads_active p = 0
                     ∧ threads_max p = threads_max p0)); [done|].
      intros p q _ Hstep (Hnil & Hzero & Hsame).
      destruct Hstep as [j p|i js j p Hi Hq|i p Hi Hq|i j p Hi];
        try (by rewrite Hnil in Hi).
      unfold pool_run.
      destruct (Z.ltb_spec (threads_active p) (threads_max p)); [lia|done]. }
    by destruct Hnone.
Qed.

Lemma queued_job_has_a_worker_witness :
  0 < threads_active (submit_all [Videos 0; Audio_url 1] ThreadPool_init).
Proof.
  assert (Hreach : ∀ js p, rtc pool_step p (submit_all js p)).
  { induction js as [|j js IH]; intros p; [done|].
    simpl. eapply rtc_l; [constructor | apply IH]. }
  refine (proj1 (proj1 (queued_job_has_a_worker ThreadPool_init
                          (submit_all [Videos 0; Audio_url 1] ThreadPool_init)
                          eq_refl eq_refl eq_refl (Hreach _ _)) _ _)).
  - simpl. lia.
  - discriminate.
Defined.

(** ** The audio url: the stream chosen *)

Lemma resolve_fresh self e name v w :
  heap w !! self = Some e → attrs e !! name = Some new_future →
  ∃ w', resolve self name v w = (w', Ok tt)
        ∧ resolved_at w' self name v
        ∧ logged w' = logged w.
Proof.
  intros He Hattr.
  destruct (resolve_pending self name v w) as (w' & Hrun & Hres).
  { by exists e. }
  exists w'. split_and!; [done|done|].
  unfold resolve, get_attr, bind in Hrun.
  rewrite deref_spec, He, Hattr in Hrun.
  unfold ret at 1, lift, future_set in Hrun. simpl in Hrun.
  unfold set_attr in Hrun. rewrite He in Hrun. by injection Hrun as <-.
Qed.

(** X11: when [pafy.new] succeeds, the job of [audio_url] resolves the
    field to the url of the [m4a] audio stream if there is one, whatever
    [getbest] would return, and to the url of the [m4a] stream given by
    [getbest] only if there is no audio stream; nothing is logged. *)
Theorem audio_url_prefers_audio_stream (self : nat) (e : Entry)
    (info : pafy_video) (s : stream) (w : World) :
  heap w !! self = Some e →
  attrs e !! "_audio_url" = Some new_future →
  pafy_new w (id e) = Ok info →
  (getbestaudio info = Ok (Some s) →
   ∃ w', Video_audio_url_job self w = (w', Ok tt)
         ∧ resolved_at w' self "_audio_url" (url s)
         ∧ logged w' = logged w)
  ∧ (getbestaudio info = Ok None → getbest info = Ok (Some s) →
     ∃ w', Video_audio_url_job self w = (w', Ok tt)
           ∧ resolved_at w' self "_audio_url" (url s)
           ∧ logged w' = logged w).
Proof.
  intros He Hattr Hnew.
  destruct (resolve_fresh self e "_audio_url" (url s) w He Hattr)
    as (w' & Hrun & Hres & Hlog).
  split.
  - intros Haudio. exists w'. split_and!; [|done|done].
    unfold Video_audio_url_job. unfold bind at 1. rewrite deref_spec, He.
    unfold ret at 1. rewrite Hnew. unfold bind at 1, lift at 1. rewrite Haudio.
    unfold bind at 1, ret at 1. exact Hrun.
  - intros Haudio Hbest. exists w'. split_and!; [|done|done].
    unfold Video_audio_url_job. unfold bind at 1. rewrite deref_spec, He.
    unfold ret at 1. rewrite Hnew. unfold bind at 1, lift at 1. rewrite Haudio.
    unfold bind at 1, lift at 1. rewrite Hbest. exact Hrun.
Qed.

Lemma audio_url_prefers_audio_stream_witness :
  ∃ w', Video_audio_url_job 0 (audio_requested pafy_both) = (w', Ok tt)
        ∧ resolved_at w' 0 "_audio_url" (VStr "audio.m4a").
Proof.
  destruct (audio_url_prefers_audio_stream 0
              {| klass := Video; id := VStr "cF9z1b5HL7M";
                 attrs := {["_audio_url" := new_future]} |}
              {| getbestaudio := Ok (Some {| url := VStr "audio.m4a" |});
                 getbest := Ok (Some {| url := VStr "video.m4a" |}) |}
              {| url := VStr "audio.m4a" |}
              (audio_requested pafy_both))
    as [Haudio _].
  - vm_compute. reflexivity.
  - reflexivity.
  - reflexivity.
  - destruct (Haudio eq_refl) as (w' & Hrun & Hres & _). by exists w'.
Defined.

(** X12: when [pafy.new] raises for a video (deleted or restricted), the
    job of [audio_url] raises nothing: it logs one error naming the video
    and resolves the field to [None], and a worker applying the job logs
    nothing more. *)
Theorem audio_url_deleted_is_none (self : nat) (e : Entry) (w : World) :
  heap w !! self = Some e →
  attrs e !! "_audio_url" = Some new_future →
  (∃ err, pafy_new w (id e) = Raise err) →
  ∃ w', Video_audio_url_job self w = (w', Ok tt)
        ∧ worker_apply 0 (Audio_url self) w = Some (w', Ok tt)
        ∧ resolved_at w' self "_audio_url" VNone
        ∧ logged w' = logged w ++ [error_deleted_restricted (id e)].
Proof.
  intros He Hattr Hnew.
  destruct (audio_url_deleted_resolves_to_none self e w He Hattr Hnew)
    as (w' & Hrun & Hres & Hlog).
  exists w'. split_and!; [done| |done|done].
  unfold worker_apply, apply_job. by rewrite Hrun.
Qed.

Lemma audio_url_deleted_is_none_witness :
  ∃ w', Video_audio_url_job 0 (audio_requested pafy_down) = (w', Ok tt)
        ∧ resolved_at w' 0 "_audio_url" VNone
        ∧ logged w' = [error_deleted_restricted (VStr "cF9z1b5HL7M")].
Proof.
  destruct (audio_url_deleted_is_none 0
              {| klass := Video; id := VStr "cF9z1b5HL7M";
                 attrs := {["_audio_url" := new_future]} |}
              (audio_requested pafy_down))
    as (w' & Hrun & _ & Hres & Hlog).
  - vm_compute. reflexivity.
  - reflexivity.
  - by exists RemoteError.
  - exists w'. by split_and!.
Defined.

(** ** The member loop: how many members, how large the requests *)







(** ** Answered chunks: every field comes from the record of its entity *)

















(** ** What a job of [load_info] writes *)

Lemma touches_only_refl P w : touches_only P w w.
Proof. by intros r n _. Qed.

Lemma touches_only_trans P w1 w2 w3 :
  touches_only P w1 w2 → touches_only P w2 w3 → touches_only P w1 w3.
Proof. intros H12 H23 r n Hn. by rewrite (H23 r n Hn), (H12 r n Hn). Qed.

Lemma touches_only_mono (P Q : nat → string → Prop) w w' :
  (∀ r n, P r n → Q r n) → touches_only P w w' → touches_only Q w w'.
Proof. intros HPQ H r n Hn. apply H. intros HP. by apply Hn, HPQ. Qed.

Lemma set_attr_touches obj name f w :
  touches_only (λ r n, r = obj ∧ n = name) w (set_attr obj name f w).1.
Proof.
  intros r n Hn. unfold set_attr, attr.
  destruct (heap w !! obj) as [e|] eqn:He; simpl; [|done].
  destruct (decide (r = obj)) as [->|Hr].
  - rewrite list_lookup_insert_eq by by eapply lookup_lt_Some.
    simpl. rewrite He. apply lookup_insert_ne. intros <-. by apply Hn.
  - by rewrite list_lookup_insert_ne.
Qed.

Lemma write_touches self item val k f w :
  touches_only (λ r n, r = self ∧ n = "_" +:+ k) w
    ((val' <- decode self k item val ;;
      match val' with
      | Some v0 =>
          f' <- lift (future_set f v0) ;;
          set_attr self ("_" +:+ k) f' ;;; ret val'
      | None => raise UnboundLocalError
      end) w).1.
Proof.
  unfold bind at 1.
  destruct (decode self k item val w) as [w1 r] eqn:Hdec.
  pose proof (decode_state self k item val w) as Hs.
  rewrite Hdec in Hs. simpl in Hs. subst w1.
  destruct r as [[v|]|err]; [|apply touches_only_refl|apply touches_only_refl].
  unfold bind, lift.
  destruct (future_set f v) as [f'|err]; [|apply touches_only_refl].
  pose proof (set_attr_touches self ("_" +:+ k) f' w) as Htouch.
  by destruct (set_attr self ("_" +:+ k) f' w) as [w1 [[]|err]].
Qed.

Lemma set_field_touches self item val k w :
  touches_only (λ r n, r = self ∧ n = "_" +:+ k) w
    (set_field self item val k w).1.
Proof.
  unfold set_field, bind at 1. rewrite deref_spec.
  destruct (heap w !! self) as [es|]; [|apply touches_only_refl].
  destruct (attrs es !! ("_" +:+ k)) as [f|].
  - unfold bind at 1, ret at 1.
    destruct (_queue f); [apply touches_only_refl | apply write_touches].
  - unfold bind at 1. unfold bind at 1.
    pose proof (set_attr_touches self ("_" +:+ k) new_future w) as Hnew.
    destruct (set_attr self ("_" +:+ k) new_future w) as [w0 [[]|e]];
      simpl in Hnew; [|done].
    unfold ret at 1. cbn [_queue new_future].
    eapply touches_only_trans; [exact Hnew | apply write_touches].
Qed.

Lemma set_fields_touches fields self item : ∀ val w,
  touches_only (λ r n, r = self ∧ n ∈ futures_of fields) w
    (set_fields self item val fields w).1.
Proof.
  induction fields as [|k rest IH]; intros val w; [apply touches_only_refl|].
  cbn [set_fields]. unfold bind.
  pose proof (set_field_touches self item val k w) as Hk.
  destruct (set_field self item val k w) as [w1 [val'|err]]; simpl in Hk.
  - eapply touches_only_trans.
    + eapply touches_only_mono; [|exact Hk].
      intros r n [-> ->]. split; [done | by left].
    + eapply touches_only_mono; [|apply (IH val' w1)].
      intros r n [-> Hn]. split; [done | by right].
  - eapply touches_only_mono; [|exact Hk].
    intros r n [-> ->]. split; [done | by left].
Qed.

Lemma chunk_loop_touches fields dict (l : list nat) : ∀ w,
  touches_only (λ r n, r ∈ l ∧ n ∈ futures_of fields) w
    (forM (λ x, e <- deref x ;;
                if hashable (id e)
                then _set_api_data x fields (pydict_get (id e) dict)
                else raise TypeError) l w).1.
Proof.
  induction l as [|x l IH]; intros w; [apply touches_only_refl|].
  cbn [forM]. unfold bind at 1. unfold bind at 1. rewrite deref_spec.
  destruct (heap w !! x) as [e|]; [|apply touches_only_refl].
  destruct (hashable (id e)); [|apply touches_only_refl].
  pose proof (set_fields_touches fields x (pydict_get (id e) dict) None w)
    as Hx.
  unfold _set_api_data.
  destruct (set_fields x (pydict_get (id e) dict) None fields w)
    as [w1 [[]|err]]; simpl in Hx.
  - eapply touches_only_trans.
    + eapply touches_only_mono; [|exact Hx].
      intros r n [-> Hn]. split; [by left | done].
    + eapply touches_only_mono; [|apply (IH w1)].
      intros r n [Hr Hn]. split; [by right | done].
  - eapply touches_only_mono; [|exact Hx].
    intros r n [-> Hn]. split; [by left | done].
Qed.

Lemma load_info_job_loop call fields (sub : list nat) ids w :
  ids_of sub w = (w, Ok ids) →
  ∃ dict,
    load_info_job call fields sub w
    = forM (λ x, e <- deref x ;;
                 if hashable (id e)
                 then _set_api_data x fields (pydict_get (id e) dict)
                 else raise TypeError) sub
        (with_sent (sent w ++ [call ids]) w).
Proof.
  intros Hids. unfold load_info_job.
  unfold bind at 1, try_except, bind at 1. rewrite Hids.
  unfold bind at 1, API at 1, lift.
  destruct (service w (sent w) (call ids)) as [data|e].
  - destruct (index_items data) as [d|e]; [by exists d | by exists []].
  - by exists [].
Qed.

Lemma heap_only_rest w w' :
  heap_only w w' →
  cache w' = cache w ∧ pool w' = pool w ∧ logged w' = logged w.
Proof.
  intros (Hw & _). split_and!.
  - by pose proof (f_equal cache Hw).
  - by pose proof (f_equal pool Hw).
  - by pose proof (f_equal logged Hw).
Qed.

Lemma chunk_loop_frame fields dict (l : list nat) w :
  heap_only w
    (forM (λ x, e <- deref x ;;
                if hashable (id e)
                then _set_api_data x fields (pydict_get (id e) dict)
                else raise TypeError) l w).1.
Proof.
  apply forM_frame. intros x w'.
  apply bind_frame; [apply deref_frame|]. intros e w3.
  destruct (hashable (id e)); [apply set_fields_frame | apply raise_frame].
Qed.

(** X15: whatever the remote service answers, the job of a [load_info]
    writes nothing but the futures of its own field group on the entities
    of its own chunk: every other future of every instance is as before
    (the audio url and the member list among them), no instance is
    created, the cache and the job queue are as before, and nothing is
    logged, not even when the request failed. *)
Theorem load_job_writes_only_its_chunk (call : list value → api_call)
    (fields : list string) (sublist : list nat) (w w' : World)
    (r : res unit) :
  Forall (valid w) sublist →
  load_info_job call fields sublist w = (w', r) →
  (∀ x n, x ∉ sublist ∨ n ∉ futures_of fields → attr w' x n = attr w x n)
  ∧ length (heap w') = length (heap w)
  ∧ cache w' = cache w
  ∧ pool w' = pool w
  ∧ logged w' = logged w.
Proof.
  intros Hvalid Hjob.
  destruct (ids_of_ok sublist w Hvalid) as [ids Hids].
  destruct (load_info_job_loop call fields sublist ids w Hids) as [dict Hloop].
  rewrite Hjob in Hloop.
  set (w0 := with_sent (sent w ++ [call ids]) w) in Hloop.
  pose proof (chunk_loop_touches fields dict sublist w0) as Htouch.
  pose proof (chunk_loop_frame fields dict sublist w0) as Hframe.
  rewrite <- Hloop in Htouch, Hframe. simpl in Htouch, Hframe.
  destruct (heap_only_rest w0 w' Hframe) as (Hcache & Hpool & Hlogged).
  split_and!; [|by destruct Hframe as (_ & ? & _)|done|done|done].
  intros x n Hout. rewrite (Htouch x n); [done|].
  intros [Hx Hn]. by destruct Hout.
Qed.

Lemma load_job_writes_only_its_chunk_witness :
  attr (Video_load_info_job [0%nat] two_videos_loading).1 1 "_title"
  = Some new_future
  ∧ logged (Video_load_info_job [0%nat] two_videos_loading).1 = [].
Proof.
  destruct (Video_load_info_job [0%nat] two_videos_loading) as [w' r] eqn:Hjob.
  destruct (load_job_writes_only_its_chunk API_list_videos Video_fields
              [0%nat] two_videos_loading w' r)
    as (Hattr & _ & _ & _ & Hlogged).
  - repeat constructor; unfold valid; vm_compute; lia.
  - exact Hjob.
  - simpl. rewrite Hlogged. split; [|vm_compute; reflexivity].
    rewrite Hattr; [vm_compute; reflexivity|].
    left. by intros [=]%list_elem_of_singleton.
Defined.

(** ** A record that does not decode *)






(** ** The audio url from the first read to the value *)

(** X17: the first read of [audio_url] on a video that has no such future
    creates an empty future, queues exactly one job for it and returns the
    future without asking for any stream; once a worker has applied that
    job on a video with an [m4a] audio stream, reading [audio_url] again
    returns the future holding the url of that stream and changes nothing:
    no second job is queued. *)
Theorem audio_url_read_then_resolved (self : nat) (e : Entry)
    (info : pafy_video) (s : stream) (w : World) :
  heap w !! self = Some e →
  attrs e !! "_audio_url" = None →
  pafy_new w (id e) = Ok info →
  getbestaudio info = Ok (Some s) →
  ∃ w1 w2,
    Video_audio_url self w = (w1, Ok new_future)
    ∧ jobs (pool w1) = jobs (pool w) ++ [Audio_url self]
    ∧ logged w1 = logged w
    ∧ worker_apply 0 (Audio_url self) w1 = Some (w2, Ok tt)
    ∧ Video_audio_url self w2 = (w2, Ok {| _queue := Some (url s) |})
    ∧ jobs (pool w2) = jobs (pool w1)
    ∧ logged w2 = logged w.
Proof.
  intros He Hattr Hnew Haudio.
  set (e1 := {| klass := klass e; id := id e;
                attrs := <["_audio_url" := new_future]> (attrs e) |}).
  set (w1 := with_pool (pool_run (Audio_url self) (pool w))
               (with_heap (<[self := e1]> (heap w)) w)).
  assert (He1 : heap w1 !! self = Some e1).
  { simpl. apply list_lookup_insert_eq. by eapply lookup_lt_Some. }
  assert (Hattr1 : attrs e1 !! "_audio_url" = Some new_future)
    by apply lookup_insert_eq.
  assert (Hread : Video_audio_url self w = (w1, Ok new_future)).
  { unfold Video_audio_url, async_property. unfold bind at 1.
    unfold bind at 1. rewrite deref_spec, He.
    change ("_" +:+ "audio_url") with "_audio_url". rewrite Hattr.
    unfold bind at 1, set_attr at 1. rewrite He. fold e1.
    unfold ThreadPool_run at 1. cbn [pool with_heap]. fold w1.
    unfold bind. by rewrite deref_spec, He1, Hattr1. }
  destruct (resolve_fresh self e1 "_audio_url" (url s) w1 He1 Hattr1)
    as (w2 & Hresolve & (e2 & He2 & Hattr2) & Hlog).
  assert (Hjob : Video_audio_url_job self w1 = (w2, Ok tt)).
  { unfold Video_audio_url_job. unfold bind at 1. rewrite deref_spec, He1.
    unfold ret at 1. change (pafy_new w1) with (pafy_new w).
    change (id e1) with (id e). rewrite Hnew.
    unfold bind at 1, lift at 1. rewrite Haudio.
    unfold bind at 1, ret at 1. exact Hresolve. }
  assert (Hpool : pool w2 = pool w1).
  { unfold resolve, get_attr, bind in Hresolve.
    rewrite deref_spec, He1, Hattr1 in Hresolve.
    unfold ret at 1, lift, future_set in Hresolve. simpl in Hresolve.
    pose proof (set_attr_frame self "_audio_url" {| _queue := Some (url s) |} w1)
      as Hframe.
    rewrite Hresolve in Hframe. simpl in Hframe.
    by destruct (heap_only_rest w1 w2 Hframe) as (_ & ? & _). }
  exists w1, w2. split_and!.
  - exact Hread.
  - apply jobs_pool_run.
  - done.
  - unfold worker_apply, apply_job. by rewrite Hjob.
  - by apply (async_property_present "audio_url" _ self e2).
  - by rewrite Hpool.
  - by rewrite Hlog.
Qed.

Lemma audio_url_read_then_resolved_witness :
  ∃ w1 w2,
    Video_audio_url 0
      (Entry_get Video (VStr "cF9z1b5HL7M") (fresh_world service_down pafy_both)).1
    = (w1, Ok new_future)
    ∧ worker_apply 0 (Audio_url 0) w1 = Some (w2, Ok tt)
    ∧ Video_audio_url 0 w2 = (w2, Ok {| _queue := Some (VStr "audio.m4a") |}).
Proof.
  destruct (audio_url_read_then_resolved 0
              {| klass := Video; id := VStr "cF9z1b5HL7M"; attrs := ∅ |}
              {| getbestaudio := Ok (Some {| url := VStr "audio.m4a" |});
                 getbest := Ok (Some {| url := VStr "video.m4a" |}) |}
              {| url := VStr "audio.m4a" |}
              (Entry_get Video (VStr "cF9z1b5HL7M")
                 (fresh_world service_down pafy_both)).1)
    as (w1 & w2 & Hread & _ & _ & Hworker & Hagain & _).
  - vm_compute. reflexivity.
  - reflexivity.
  - reflexivity.
  - reflexivity.
  - by exists w1, w2.
Defined.

(** ** The members of a playlist are seeded with their titles *)




Lemma same_classes_trans w1 w2 w3 :
  same_classes w1 w2 → same_classes w2 w3 → same_classes w1 w3.
Proof.
  intros H12 H23 r e He. destruct (H12 r e He) as (e2 & He2 & Hk2).
  destruct (H23 r e2 He2) as (e3 & He3 & Hk3). exists e3.
  split; congruence.
Qed.






















